(** * Treasury transfer indexer (src/axieScore.ts, second module)

    A shallow embedding of the block-range indexer: the range planner
    [buildRangesForward], the batching helper [chunkArray], the address
    helpers [topicToAddress] and [computeContributor], and the core loop
    [indexRange] with its three nested scopes (batch, log, ledger write).

    JavaScript numbers that hold block heights are modelled as [Z] (the
    source only uses them as integers, far below 2^53); [bigint] amounts are
    [Z]; strings are [string]; the two [Map]s of [indexRange] are [gmap]s.
    The range planner is given twice: on exact integers, which is what the
    run uses, and with every sum rounded as a JavaScript number rounds it;
    the two agree as long as no value leaves the range [-2^53, 2^53].
    Everything that lives outside the repository (the JSON-RPC provider, the
    ethers helpers, the BigInt parser, the Prisma client's failures) is an
    interface, [Externals], that the definitions are parametric in. *)

From Stdlib Require Import ZArith List String Ascii Lia DecimalString.
From Stdlib Require QArith_base.
From stdpp Require Import gmap strings list.

Local Open Scope Z_scope.

(** ** Range planner *)

Record BlockRange := mkRange { fromBlock : Z; toBlock : Z }.

(** The [while (start <= toBlock)] loop of [buildRangesForward], with its
    sums taken on exact integers: this is the arithmetic of the source as
    long as [start + span] and [end + 1] stay within [-2^53, 2^53], where
    every integer is a JavaScript number (see [buildRanges_loop_f64] for the
    loop beyond that range).  [fuel] bounds the number of iterations; [None]
    means the bound was hit with the loop condition still true. *)
Fixpoint buildRanges_loop (fuel : nat) (start toB span : Z)
  : option (list BlockRange) :=
  if start <=? toB then
    match fuel with
    | O => None
    | S fuel' =>
        let end_ := Z.min (start + span - 1) toB in
        match buildRanges_loop fuel' (end_ + 1) toB span with
        | Some ranges => Some (mkRange start end_ :: ranges)
        | None => None
        end
    end
  else Some [].

(** [buildRangesForward(fromBlock, toBlock, span)].  The loop advances
    [start] by at least one block per iteration when [span >= 1], so
    [toBlock - fromBlock + 1] iterations are enough; with [span <= 0] and
    [fromBlock <= toBlock] the source loops forever, which is the [None]
    result here. *)
Definition buildRangesForward (fromB toB span : Z) : option (list BlockRange) :=
  buildRanges_loop (Z.to_nat (toB - fromB + 1)) fromB toB span.

(** An integer as the JavaScript number nearest to it: unchanged up to
    2^53 in magnitude, and beyond that rounded to 53 significant bits, a tie
    going to the even significand (magnitudes of 2^1024 and more, which
    round to an infinity, are outside this model). *)
Definition roundF64 (z : Z) : Z :=
  if Z.abs z <=? 2 ^ 53 then z
  else
    let e := Z.log2 (Z.abs z) - 52 in
    let q := Z.abs z / 2 ^ e in
    let r := Z.abs z mod 2 ^ e in
    let half := 2 ^ (e - 1) in
    let q' :=
      if r <? half then q
      else if half <? r then q + 1
      else if Z.even q then q else q + 1 in
    Z.sgn z * (q' * 2 ^ e).

(** The loop of [buildRangesForward] as JavaScript evaluates it on
    integer-valued numbers: [start + span], [... - 1] and [end + 1] are each
    rounded to a number. *)
Fixpoint buildRanges_loop_f64 (fuel : nat) (start toB span : Z)
  : option (list BlockRange) :=
  if start <=? toB then
    match fuel with
    | O => None
    | S fuel' =>
        let end_ := Z.min (roundF64 (roundF64 (start + span) - 1)) toB in
        match buildRanges_loop_f64 fuel' (roundF64 (end_ + 1)) toB span with
        | Some ranges => Some (mkRange start end_ :: ranges)
        | None => None
        end
    end
  else Some [].

Definition buildRangesForward_f64 (fromB toB span : Z) : option (list BlockRange) :=
  buildRanges_loop_f64 (Z.to_nat (toB - fromB + 1)) fromB toB span.

(** The graph of the loop: what one pass over [start..toB] emits. *)
Inductive tiles (span : Z) : Z -> Z -> list BlockRange -> Prop :=
| tiles_done start toB :
    toB < start -> tiles span start toB []
| tiles_step start toB ranges :
    start <= toB ->
    tiles span (Z.min (start + span - 1) toB + 1) toB ranges ->
    tiles span start toB (mkRange start (Z.min (start + span - 1) toB) :: ranges).

(** Integer ceiling of [a / b] for positive [b]. *)
Definition ceil_div (a b : Z) : Z := (a + b - 1) / b.

(** Block [b] lies in window [r]. *)
Definition in_window (b : Z) (r : BlockRange) : Prop :=
  fromBlock r <= b <= toBlock r.

(** ** Batching *)

(** The [for (i = 0; i < arr.length; i += size)] loop of [chunkArray], run on
    the part of the array that is still to be sliced ([arr.slice(i)]): each
    iteration pushes its first [size] elements.  With [size = 0] the source
    never leaves the loop on a non-empty array: [None]. *)
Fixpoint chunk_loop {T} (fuel : nat) (rest : list T) (size : nat)
  : option (list (list T)) :=
  match rest with
  | [] => Some []
  | _ :: _ =>
      match fuel with
      | O => None
      | S fuel' =>
          match chunk_loop fuel' (drop size rest) size with
          | Some chunks => Some (take size rest :: chunks)
          | None => None
          end
      end
  end.

Definition chunkArray {T} (arr : list T) (size : nat) : option (list (list T)) :=
  chunk_loop (length arr) arr size.

(** ** Strings *)

(** [String.prototype.toLowerCase] on the ASCII range, which is all an
    address or a hash contains. *)
Definition lowerAscii (c : ascii) : ascii :=
  let n := nat_of_ascii c in
  if ((65 <=? n) && (n <=? 90))%nat then ascii_of_nat (n + 32) else c.

Fixpoint toLowerCase (s : string) : string :=
  match s with
  | EmptyString => EmptyString
  | String c rest => String (lowerAscii c) (toLowerCase rest)
  end.

(** [s.slice(-n)]: the last [n] characters, or all of [s] when it is
    shorter. *)
Definition sliceLast (n : nat) (s : string) : string :=
  String.substring (String.length s - n) n s.

(** [Array.prototype.includes] on an array of strings. *)
Definition includes (xs : list string) (x : string) : bool :=
  existsb (String.eqb x) xs.

(** [bigint.toString()]: decimal digits, with a sign when negative. *)
Definition bigintToString (v : Z) : string :=
  NilZero.string_of_int (Z.to_int v).

(** [ethers.zeroPadValue(data, length)] for [0x]-prefixed data of at most
    [length] bytes: zeros are added on the left. *)
Definition zeroPadValue (data : string) (len : nat) : string :=
  let body := String.substring 2 (String.length data - 2) data in
  "0x" +:+ string_of_list_ascii (repeat "0"%char (2 * len - String.length body))
       +:+ body.

(** ** Configuration *)

Record Token := mkToken { symbol : string; address : string; decimals : nat }.

Definition TOKENS : list Token :=
  [ mkToken "AXS" "0x97a9107c1793bc407d6f527b77e7fff4d812bece" 18;
    mkToken "WETH" "0xc99a6a985ed2cac1ef41640596c5a5f9f4e19ef5" 18 ].

Definition TREASURY_ADDRESS : string :=
  toLowerCase "0x245db945c485b68fdc429e4f7085a1761aa4d45d".

Definition PROXY_ADDRESSES : list string :=
  [ toLowerCase "0x3b3adf1422f84254b7fbb0e7ca62bd0865133fe3" ].

(** [ethers.id("Transfer(address,address,uint256)")], the keccak-256 hash of
    the event signature. *)
Definition TRANSFER_TOPIC : string :=
  "0xddf252ad1be2c89b69c2b068fc378daa952ba7f163c4a11628f55a4df523b3ef".

Definition BLOCK_SPAN : Z := 400.
Definition MAX_CONCURRENCY : nat := 2.

(** ** Data model *)

(** A log as the provider returns it. *)
Record Log := mkLog {
  log_address : string;
  log_topics : list string;
  log_data : string;
  log_transactionHash : string;
  log_index : Z;
  log_blockNumber : Z }.

(** The one field of a transaction response that the indexer reads. *)
Record Transaction := mkTx { tx_from : string }.

(** A row of the [treasuryTransfer] table. *)
Record TreasuryTransfer := mkTransfer {
  txHash : string;
  logIndex : Z;
  blockNumber : Z;
  tokenSymbol : string;
  tokenAddress : string;
  treasury : string;
  proxyUsed : bool;
  txFrom : string;
  transferFrom : string;
  transferTo : string;
  contributor : string;
  amountRaw : string;
  amountFormatted : string }.

(** The argument of [provider.getLogs]. *)
Record LogFilter := mkFilter {
  filter_address : list string;
  filter_fromBlock : Z;
  filter_toBlock : Z;
  filter_topics : list (option string) }.

(** What awaiting [provider.getTransaction] can do. *)
Inductive TxLookup :=
| TxRejected                    (* the promise rejects *)
| TxNull                        (* resolves to null *)
| TxFound (tx : Transaction).

(** Everything outside the repository.  [None] stands for a rejected
    promise or a thrown exception.
    - [getLogs], [getTransaction]: the JSON-RPC provider;
    - [getAddress], [formatUnits]: ethers' address checksumming and
      fixed-point formatting;
    - [formatUnitsOverflows]: whether [ethers.formatUnits] throws on the
      value instead of returning (it formats through a 512-bit fixed-point
      number and throws on a value that does not fit, 2^511 and beyond);
    - [BigInt]: the built-in string-to-bigint conversion;
    - [upsertFails]: whether the Prisma client rejects the write that would
      create the given row (connection loss, constraint error, ...). *)
Class Externals := {
  getLogs : LogFilter -> option (list Log);
  getTransaction : string -> TxLookup;
  getAddress : string -> option string;
  BigInt : string -> option Z;
  formatUnits : Z -> nat -> string;
  formatUnitsOverflows : Z -> nat -> bool;
  upsertFails : TreasuryTransfer -> bool }.

(** ** The ledger table *)

Definition Table := list TreasuryTransfer.

(** The compound unique key [txHash_logIndex]. *)
Definition keyOf (r : TreasuryTransfer) : string * Z := (txHash r, logIndex r).

Definition hasKey (k : string * Z) (r : TreasuryTransfer) : bool :=
  String.eqb (txHash r) (fst k) && (logIndex r =? snd k).

Definition findUnique (k : string * Z) (t : Table) : option TreasuryTransfer :=
  find (hasKey k) t.

(** Apply [update] to the row with key [k]. *)
Fixpoint updateUnique (k : string * Z) (update : TreasuryTransfer -> TreasuryTransfer)
    (t : Table) : Table :=
  match t with
  | [] => []
  | r :: rest =>
      if hasKey k r then update r :: rest else r :: updateUnique k update rest
  end.

(** Prisma's [upsert({where, update, create})] without the failures: if a
    row matches [where] it is updated with [update], otherwise [create] is
    inserted; the resulting row is returned. *)
Definition upsert (t : Table) (where_ : string * Z)
    (update : TreasuryTransfer -> TreasuryTransfer) (create : TreasuryTransfer)
  : Table * TreasuryTransfer :=
  match findUnique where_ t with
  | Some row => (updateUnique where_ update t, update row)
  | None => (t ++ [create], create)
  end.

(** [update: {}] changes no column. *)
Definition emptyUpdate (r : TreasuryTransfer) : TreasuryTransfer := r.

(** ** The indexer *)

(** The persistent table together with the two accumulators of one
    [indexRange] call. *)
Record RunState := mkState {
  db : Table;
  totalWeiByToken : gmap string Z;
  totalRecords : Z }.

(** How a loop body ends: it runs to its end (or [continue]s), or an
    exception leaves it. *)
Inductive Completion := Completed | Threw.

(** What lines 299-321 of the loop body compute for one log before anything
    is accumulated or written.  An exception can come from a missing or
    malformed topic, from [BigInt], from the transaction lookup, from
    [getAddress] on the sender, and from [formatUnits] on the amount. *)
Inductive Resolved :=
| Untracked                     (* [continue]: not a tracked token *)
| Raised                        (* an exception escapes the loop body *)
| TxMissing                     (* [continue]: transaction not found *)
| Ready (token : Token) (valueWei : Z) (create : TreasuryTransfer).

(** [Promise.all]: rejects as soon as one promise does. *)
Fixpoint promiseAll {A} (ps : list (option A)) : option (list A) :=
  match ps with
  | [] => Some []
  | p :: rest =>
      match p, promiseAll rest with
      | Some a, Some results => Some (a :: results)
      | _, _ => None
      end
  end.

Section Indexer.

Context {E : Externals}.

Definition topicToAddress (topic : string) : option string :=
  let hex := "0x" +:+ sliceLast 40 topic in
  getAddress hex.

Definition computeContributor (transferFrom txFrom : string) : option string :=
  let fromLower := toLowerCase transferFrom in
  if includes PROXY_ADDRESSES fromLower then getAddress txFrom
  else Some transferFrom.

Definition tokenAddrMap : gmap string Token :=
  foldl (fun m t => <[toLowerCase (address t) := t]> m) ∅ TOKENS.

Definition topicsFilter : list (option string) :=
  [Some TRANSFER_TOPIC; None; Some (zeroPadValue TREASURY_ADDRESS 32)].

Definition filterFor (r : BlockRange) : LogFilter :=
  mkFilter (map address TOKENS) (fromBlock r) (toBlock r) topicsFilter.

(** [topicToAddress(log.topics[i])]; a missing topic is [undefined], on
    which [.slice] throws. *)
Definition topicAddressAt (log : Log) (i : nat) : option string :=
  match log_topics log !! i with
  | Some topic => topicToAddress topic
  | None => None
  end.

Definition resolveLog (log : Log) : Resolved :=
  match tokenAddrMap !! toLowerCase (log_address log) with
  | None => Untracked
  | Some token =>
      match topicAddressAt log 1, topicAddressAt log 2, BigInt (log_data log) with
      | Some transferFrom, Some transferTo, Some valueWei =>
          match getTransaction (log_transactionHash log) with
          | TxRejected => Raised
          | TxNull => TxMissing
          | TxFound tx =>
              match getAddress (tx_from tx) with
              | None => Raised
              | Some txFrom =>
                  match computeContributor transferFrom txFrom with
                  | None => Raised
                  | Some contributor =>
                      if formatUnitsOverflows valueWei (decimals token)
                      then Raised
                      else
                      let formatted := formatUnits valueWei (decimals token) in
                      let proxyUsed :=
                        includes PROXY_ADDRESSES (toLowerCase transferFrom) in
                      Ready token valueWei
                        {| txHash := log_transactionHash log;
                           logIndex := log_index log;
                           blockNumber := log_blockNumber log;
                           tokenSymbol := symbol token;
                           tokenAddress := address token;
                           treasury := transferTo;
                           proxyUsed := proxyUsed;
                           txFrom := txFrom;
                           transferFrom := transferFrom;
                           transferTo := transferTo;
                           contributor := contributor;
                           amountRaw := bigintToString valueWei;
                           amountFormatted := formatted |}
                  end
              end
          end
      | _, _, _ => Raised
      end
  end.

(** The body of [for (const log of logs)]: the per-token total is
    accumulated first, then the row is upserted inside its own
    [try]/[catch]; [totalRecords] is incremented after the awaited upsert. *)
Definition processLog (st : RunState) (log : Log) : RunState * Completion :=
  match resolveLog log with
  | Untracked => (st, Completed)
  | TxMissing => (st, Completed)
  | Raised => (st, Threw)
  | Ready token valueWei create =>
      let prev := default 0 (totalWeiByToken st !! symbol token) in
      let totals := <[symbol token := prev + valueWei]> (totalWeiByToken st) in
      if upsertFails create then
        (mkState (db st) totals (totalRecords st), Completed)
      else
        let written :=
          upsert (db st) (log_transactionHash log, log_index log)
                 emptyUpdate create in
        (mkState (fst written) totals (totalRecords st + 1), Completed)
  end.

Fixpoint processLogs (st : RunState) (logs : list Log) : RunState * Completion :=
  match logs with
  | [] => (st, Completed)
  | log :: rest =>
      match processLog st log with
      | (st', Completed) => processLogs st' rest
      | (st', Threw) => (st', Threw)
      end
  end.

(** [for (const logs of results)]. *)
Fixpoint processResults (st : RunState) (results : list (list Log))
  : RunState * Completion :=
  match results with
  | [] => (st, Completed)
  | logs :: rest =>
      match processLogs st logs with
      | (st', Completed) => processResults st' rest
      | (st', Threw) => (st', Threw)
      end
  end.

(** One iteration of the loop over batches: the [try] block fetches the
    logs of every window of the batch with one [Promise.all] and then
    processes them; the [catch] only reports, so whatever was written
    before an exception stays. *)
Definition processBatch (st : RunState) (batch : list BlockRange) : RunState :=
  match promiseAll (map (fun r => getLogs (filterFor r)) batch) with
  | None => st
  | Some results => fst (processResults st results)
  end.

Definition runBatches (st : RunState) (batches : list (list BlockRange))
  : RunState :=
  foldl processBatch st batches.

(** [indexRange(fromBlock, toBlock)] run against the table [t]: the
    accumulators start empty on every call.  The planner is taken on exact
    integers, which is the arithmetic of the source for block bounds with
    [-2^53 <= fromBlock] and [toBlock + BLOCK_SPAN <= 2^53]. *)
Definition indexRange (t : Table) (fromB toB : Z) : option RunState :=
  match buildRangesForward fromB toB BLOCK_SPAN with
  | None => None
  | Some ranges =>
      match chunkArray ranges MAX_CONCURRENCY with
      | None => None
      | Some batches => Some (runBatches (mkState t ∅ 0) batches)
      end
  end.

End Indexer.

(** ** The summary printed by the main block *)

Definition TO_BLOCK : Z := 50532500.


(** ** Profile lookup (the first module of the file) *)

Local Set Warnings "-register-all".

(** The values the page script handles: what [JSON.parse] can return, and
    [undefined]. The fields of an object have distinct keys. *)
Inductive JSValue :=
| JUndefined
| JNull
| JBool (b : bool)
| JNumber (q : QArith_base.Q)
| JString (s : string)
| JArray (items : list JSValue)
| JObject (fields : list (string * JSValue)).

(** JavaScript truthiness. *)
Definition truthy (v : JSValue) : bool :=
  match v with
  | JUndefined => false
  | JNull => false
  | JBool b => b
  | JNumber q => negb (QArith_base.Qnum q =? 0)
  | JString EmptyString => false
  | JString (String _ _) => true
  | JArray _ => true
  | JObject _ => true
  end.

Fixpoint lookupField (p : string) (fields : list (string * JSValue)) : JSValue :=
  match fields with
  | [] => JUndefined
  | (k, v) :: rest => if String.eqb k p then v else lookupField p rest
  end.

(** [v?.p] for the property names the script reads ([errors], [data],
    [settings], [name], ...): none of them exists on a primitive, on an
    array or on [Object.prototype], so only an own field of an object
    answers. *)
Definition optGet (v : JSValue) (p : string) : JSValue :=
  match v with
  | JObject fields => lookupField p fields
  | _ => JUndefined
  end.

(** [a ?? b]. *)
Definition nullish (a b : JSValue) : JSValue :=
  match a with
  | JUndefined => b
  | JNull => b
  | _ => a
  end.

(** The non-null [RunResult]. *)
Record RunResult := mkResult {
  result_address : string;
  result_name : JSValue;
  result_axieScore : JSValue;
  result_title : JSValue }.

(** What [getData] returns when it does not return null. *)
Record ProfileData := mkProfileData {
  address0x : string;
  name : JSValue;
  axieScore : JSValue;
  title : JSValue }.

(** A promise: rejected, or resolved to a value. *)
Inductive Settled (A : Type) :=
| Rejects
| Resolves (a : A).
Arguments Rejects {A}.
Arguments Resolves {A} a.

(** What the in-page [fetch] and [res.text()] give: the request or the body
    read is rejected, or there is a response with its [ok] flag and body. *)
Inductive FetchOutcome :=
| FetchRejected
| FetchResponse (ok : bool) (text : string).

(** The browser and the network.
    - [launches]: [puppeteer.launch] and [browser.newPage] resolve;
    - [passes]: [ensureCloudflarePass] resolves (its result is not used);
    - [fetchProfile]: the POST for a given address, from inside the page;
    - [JSON_parse]: [JSON.parse], [None] when it throws;
    - [closes]: [browser.close] resolves. *)
Class Browser := {
  launches : bool;
  passes : bool;
  fetchProfile : string -> FetchOutcome;
  JSON_parse : string -> option JSValue;
  closes : bool }.

Section ProfileLookup.

Context {B : Browser}.

(** The tail of the page script, from [const profile = ...]. *)
Definition profileOf (address0x : string) (json : JSValue) : option RunResult :=
  let profile := optGet (optGet json "data") "publicProfileWithRoninAddress" in
  let stats := optGet (optGet profile "settings") "axieEcosystemStats" in
  if truthy stats then
    Some {| result_address := address0x;
            result_name := nullish (optGet profile "name") JNull;
            result_axieScore := optGet stats "axieScore";
            result_title := optGet stats "title" |}
  else None.

(** [text ? JSON.parse(text) : null]. *)
Definition parseBody (text : string) : option JSValue :=
  match text with
  | EmptyString => Some JNull
  | String _ _ => JSON_parse text
  end.

(** The function passed to [page.evaluate]; the outer [None] is a thrown
    error (rejected fetch, non-JSON body, HTTP or GraphQL error). *)
Definition evaluateInPage (address0x : string) : option (option RunResult) :=
  match fetchProfile address0x with
  | FetchRejected => None
  | FetchResponse ok text =>
      match parseBody text with
      | None => None
      | Some json =>
          if negb ok || truthy (optGet json "errors") then None
          else Some (profileOf address0x json)
      end
  end.

(** [run]: the browser is launched outside the [try]; the [catch] turns any
    error of the body into [null]; the [finally] closes the browser, and a
    failure there rejects the call. *)
Definition run (address0x : string) : Settled (option RunResult) :=
  if launches then
    let result :=
      if passes then
        match evaluateInPage address0x with
        | Some result => result
        | None => None
        end
      else None in
    if closes then Resolves result else Rejects
  else Rejects.

Definition getData (address0x : string) : Settled (option ProfileData) :=
  match run address0x with
  | Rejects => Rejects
  | Resolves None => Resolves None
  | Resolves (Some result) =>
      Resolves (Some {| address0x := address0x;
                        name := result_name result;
                        axieScore := result_axieScore result;
                        title := result_title result |})
  end.

End ProfileLookup.

(** ** Notions used in the statements *)

(** The effect of the indexer's upsert on the table: append unless the key
    is taken. *)
Definition addIfAbsent (t : Table) (c : TreasuryTransfer) : Table :=
  match findUnique (keyOf c) t with
  | Some _ => t
  | None => t ++ [c]
  end.

(** Case-insensitive membership in the proxy list. *)
Definition isKnownProxy (a : string) : Prop :=
  exists p, p ∈ PROXY_ADDRESSES /\ toLowerCase p = toLowerCase a.

(** Case-insensitive membership in the tracked tokens. *)
Definition isTracked (a : string) : Prop :=
  exists t, t ∈ TOKENS /\ toLowerCase (address t) = toLowerCase a.

(** [c] is the row that the loop body builds for some log and that the
    store accepts. *)
Definition created {E : Externals} (c : TreasuryTransfer) : Prop :=
  exists log token valueWei,
    resolveLog log = Ready token valueWei c /\ upsertFails c = false.

(** [log] is one of the logs that the provider returns for a window of the
    run over [fromB..toB]. *)
Definition fetchedBy {E : Externals} (fromB toB : Z) (log : Log) : Prop :=
  exists ranges r logs,
    buildRangesForward fromB toB BLOCK_SPAN = Some ranges /\
    r ∈ ranges /\
    getLogs (filterFor r) = Some logs /\
    log ∈ logs.

(** Two run states that agree on the accumulators and whose tables are
    related by [P]. *)
Definition related (P : Table -> Table -> Prop) (s1 s2 : RunState) : Prop :=
  P (db s1) (db s2) /\
  totalWeiByToken s1 = totalWeiByToken s2 /\
  totalRecords s1 = totalRecords s2.

(** ** A concrete world

    Small instances of [Externals] on which the definitions can be run.  The
    stand-ins keep the shape of the real helpers (an address is [0x] and 40
    characters, an amount is a hexadecimal quantity) but the stand-in for
    the checksum simply upper-cases the hexadecimal letters. *)
Module Sample.

Definition upperAscii (c : ascii) : ascii :=
  let n := nat_of_ascii c in
  if ((97 <=? n) && (n <=? 122))%nat then ascii_of_nat (n - 32) else c.

Fixpoint toUpperCase (s : string) : string :=
  match s with
  | EmptyString => EmptyString
  | String c rest => String (upperAscii c) (toUpperCase rest)
  end.

Definition checksum (a : string) : option string :=
  if ((String.length a =? 42)%nat && String.prefix "0x" a)%bool
  then Some ("0x" +:+ toUpperCase (String.substring 2 40 a))
  else None.

Definition hexDigit (c : ascii) : option Z :=
  let n := Z.of_nat (nat_of_ascii c) in
  if (48 <=? n) && (n <=? 57) then Some (n - 48)
  else if (97 <=? n) && (n <=? 102) then Some (n - 87)
  else if (65 <=? n) && (n <=? 70) then Some (n - 55)
  else None.

Fixpoint hexValue (acc : Z) (s : string) : option Z :=
  match s with
  | EmptyString => Some acc
  | String c rest =>
      match hexDigit c with
      | Some d => hexValue (16 * acc + d) rest
      | None => None
      end
  end.

Definition parseQuantity (s : string) : option Z :=
  match s with
  | String "0" (String "x" (String c rest)) => hexValue 0 (String c rest)
  | _ => None
  end.

Fixpoint dropZeros (cs : list ascii) : list ascii :=
  match cs with
  | "0"%char :: rest => dropZeros rest
  | _ => cs
  end.

(** Fixed-point rendering of a non-negative amount: integer part, a dot,
    and the fraction without trailing zeros (at least one digit). *)
Definition renderUnits (v : Z) (d : nat) : string :=
  let unit := 10 ^ Z.of_nat d in
  let digits := list_ascii_of_string (bigintToString (v mod unit)) in
  let padded := repeat "0"%char (d - length digits) ++ digits in
  let fraction := rev (dropZeros (rev padded)) in
  bigintToString (v / unit) +:+ "." +:+
    string_of_list_ascii (match fraction with [] => ["0"%char] | _ => fraction end).

(** The fixed-point format of [formatUnits] holds 512 bits with a sign. *)
Definition unitsOverflow (v : Z) (d : nat) : bool :=
  negb ((- 2 ^ 511 <=? v) && (v <? 2 ^ 511)).

Definition alice : string := "0x00000000000000000000000000000000000a11ce".
Definition bob : string := "0x0000000000000000000000000000000000000b0b".
Definition elsewhere : string := "0x000000000000000000000000000000000000dead".
Definition proxy : string := "0x3B3ADF1422F84254B7FBB0E7CA62BD0865133FE3".

(** One whole AXS routed through the proxy to the treasury. *)
Definition logViaProxy : Log :=
  mkLog "0x97A9107C1793BC407D6F527B77E7FFF4D812BECE"
        [TRANSFER_TOPIC; zeroPadValue proxy 32; zeroPadValue TREASURY_ADDRESS 32]
        "0x0de0b6b3a7640000" "0xaa01" 0 100.

(** A WETH transfer whose recipient topic is not the treasury. *)
Definition logDirect : Log :=
  mkLog "0xc99a6a985ed2cac1ef41640596c5a5f9f4e19ef5"
        [TRANSFER_TOPIC; zeroPadValue bob 32; zeroPadValue elsewhere 32]
        "0x05" "0xbb02" 3 500.

(** A transfer of a token that is not tracked. *)
Definition logUntracked : Log :=
  mkLog "0x1111111111111111111111111111111111111111"
        [TRANSFER_TOPIC; zeroPadValue bob 32; zeroPadValue TREASURY_ADDRESS 32]
        "0x07" "0xcc03" 1 120.

(** A tracked transfer whose transaction the provider does not find. *)
Definition logOrphan : Log :=
  mkLog "0x97a9107c1793bc407d6f527b77e7fff4d812bece"
        [TRANSFER_TOPIC; zeroPadValue alice 32; zeroPadValue TREASURY_ADDRESS 32]
        "0x09" "0xdd04" 2 130.

(** A later AXS transfer sent to the treasury directly. *)
Definition logLate : Log :=
  mkLog "0x97a9107c1793bc407d6f527b77e7fff4d812bece"
        [TRANSFER_TOPIC; zeroPadValue alice 32; zeroPadValue TREASURY_ADDRESS 32]
        "0x0a" "0xee05" 0 900.

Definition chainTransaction (h : string) : TxLookup :=
  if String.eqb h "0xaa01" then TxFound (mkTx alice)
  else if String.eqb h "0xee05" then TxFound (mkTx alice)
  else if String.eqb h "0xbb02" then TxFound (mkTx bob)
  else if String.eqb h "0xcc03" then TxFound (mkTx bob)
  else TxNull.

(** Blocks 0..399 hold three logs, blocks 400..799 and 800..1199 one each. *)
Definition chainLogs (f : LogFilter) : option (list Log) :=
  if (filter_fromBlock f =? 0) && (filter_toBlock f =? 399)
  then Some [logViaProxy; logUntracked; logOrphan]
  else if (filter_fromBlock f =? 400) && (filter_toBlock f =? 799)
  then Some [logDirect]
  else if (filter_fromBlock f =? 800) && (filter_toBlock f =? 1199)
  then Some [logLate]
  else Some [].

(** The same chain behind a provider that rejects the query for blocks
    0..399. *)
Definition chainLogsOutage (f : LogFilter) : option (list Log) :=
  if (filter_fromBlock f =? 0) && (filter_toBlock f =? 399) then None
  else chainLogs f.

Definition world : Externals :=
  {| getLogs := chainLogs;
     getTransaction := chainTransaction;
     getAddress := checksum;
     BigInt := parseQuantity;
     formatUnits := renderUnits;
     formatUnitsOverflows := unitsOverflow;
     upsertFails := fun _ => false |}.

Definition worldOutage : Externals :=
  {| getLogs := chainLogsOutage;
     getTransaction := chainTransaction;
     getAddress := checksum;
     BigInt := parseQuantity;
     formatUnits := renderUnits;
     formatUnitsOverflows := unitsOverflow;
     upsertFails := fun _ => false |}.

(** A store that rejects every write. *)
Definition worldStoreDown : Externals :=
  {| getLogs := chainLogs;
     getTransaction := chainTransaction;
     getAddress := checksum;
     BigInt := parseQuantity;
     formatUnits := renderUnits;
     formatUnitsOverflows := unitsOverflow;
     upsertFails := fun _ => true |}.

(** The row written for [logViaProxy]. *)
Definition rowViaProxy : TreasuryTransfer :=
  {| txHash := "0xaa01"; logIndex := 0; blockNumber := 100;
     tokenSymbol := "AXS";
     tokenAddress := "0x97a9107c1793bc407d6f527b77e7fff4d812bece";
     treasury := "0x245DB945C485B68FDC429E4F7085A1761AA4D45D";
     proxyUsed := true;
     txFrom := "0x00000000000000000000000000000000000A11CE";
     transferFrom := "0x3B3ADF1422F84254B7FBB0E7CA62BD0865133FE3";
     transferTo := "0x245DB945C485B68FDC429E4F7085A1761AA4D45D";
     contributor := "0x00000000000000000000000000000000000A11CE";
     amountRaw := "1000000000000000000";
     amountFormatted := "1.0" |}.

(** The row written for [logDirect]. *)
Definition rowDirect : TreasuryTransfer :=
  {| txHash := "0xbb02"; logIndex := 3; blockNumber := 500;
     tokenSymbol := "WETH";
     tokenAddress := "0xc99a6a985ed2cac1ef41640596c5a5f9f4e19ef5";
     treasury := "0x000000000000000000000000000000000000DEAD";
     proxyUsed := false;
     txFrom := "0x0000000000000000000000000000000000000B0B";
     transferFrom := "0x0000000000000000000000000000000000000B0B";
     transferTo := "0x000000000000000000000000000000000000DEAD";
     contributor := "0x0000000000000000000000000000000000000B0B";
     amountRaw := "5";
     amountFormatted := "0.000000000000000005" |}.

(** The row written for [logLate]. *)
Definition rowLate : TreasuryTransfer :=
  {| txHash := "0xee05"; logIndex := 0; blockNumber := 900;
     tokenSymbol := "AXS";
     tokenAddress := "0x97a9107c1793bc407d6f527b77e7fff4d812bece";
     treasury := "0x245DB945C485B68FDC429E4F7085A1761AA4D45D";
     proxyUsed := false;
     txFrom := "0x00000000000000000000000000000000000A11CE";
     transferFrom := "0x00000000000000000000000000000000000A11CE";
     transferTo := "0x245DB945C485B68FDC429E4F7085A1761AA4D45D";
     contributor := "0x00000000000000000000000000000000000A11CE";
     amountRaw := "10";
     amountFormatted := "0.00000000000000001" |}.

Definition emptyState : RunState := mkState [] ∅ 0.

End Sample.

(** A browser that works, in front of a gateway that knows one address. *)
Module SampleProfile.

Definition lunacian : string := "0x00000000000000000000000000000000000a11ce".

Definition body : string := "{profile of 0x..a11ce}".
Definition bodyErrors : string := "{errors and data}".

Definition stats : JSValue :=
  JObject [("axieScore", JNumber (QArith_base.Qmake 1250 1));
           ("title", JString "Collector")].

Definition profileJson : JSValue :=
  JObject [("data",
            JObject [("publicProfileWithRoninAddress",
                      JObject [("name", JNull);
                               ("settings",
                                JObject [("axieEcosystemStats", stats)])])])].

(** The same data next to a non-empty [errors] array. *)
Definition profileJsonErrors : JSValue :=
  JObject [("errors", JArray [JObject [("message", JString "partial")]]);
           ("data", optGet profileJson "data")].

Definition parse (text : string) : option JSValue :=
  if String.eqb text body then Some profileJson
  else if String.eqb text bodyErrors then Some profileJsonErrors
  else None.

Definition gateway (a : string) : FetchOutcome :=
  if String.eqb a lunacian then FetchResponse true body
  else if String.eqb a "0xerrors" then FetchResponse true bodyErrors
  else if String.eqb a "0xdenied" then FetchResponse false body
  else FetchResponse true EmptyString.

Definition browser : Browser :=
  {| launches := true; passes := true; fetchProfile := gateway;
     JSON_parse := parse; closes := true |}.

(** The page never gets past the challenge. *)
Definition browserBlocked : Browser :=
  {| launches := true; passes := false; fetchProfile := gateway;
     JSON_parse := parse; closes := true |}.

(** The browser cannot be closed. *)
Definition browserStuck : Browser :=
  {| launches := true; passes := true; fetchProfile := gateway;
     JSON_parse := parse; closes := false |}.

End SampleProfile.

(** The chain of [Sample] with one malformed log among those of blocks
    0..399: a transfer of a tracked token that lacks its third topic. *)
Module SampleFaults.

Definition logTruncated : Log :=
  mkLog "0x97a9107c1793bc407d6f527b77e7fff4d812bece"
        [TRANSFER_TOPIC; zeroPadValue Sample.bob 32]
        "0x0b" "0xff06" 4 140.


Definition chainLogs (f : LogFilter) : option (list Log) :=
  if (filter_fromBlock f =? 0) && (filter_toBlock f =? 399)
  then Some [Sample.logViaProxy; logTruncated; Sample.logLate]
  else Sample.chainLogs f.

Definition world : Externals :=
  {| getLogs := chainLogs;
     getTransaction := Sample.chainTransaction;
     getAddress := Sample.checksum;
     BigInt := Sample.parseQuantity;
     formatUnits := Sample.renderUnits;
     formatUnitsOverflows := Sample.unitsOverflow;
     upsertFails := fun _ => false |}.

End SampleFaults.

(** * Properties *)

Section RangePlanner.

Variable span : Z.
Hypothesis span_pos : 1 <= span.

Lemma buildRanges_loop_tiles fuel :
  forall start toB,
    toB - start + 1 <= Z.of_nat fuel ->
    exists ranges,
      buildRanges_loop fuel start toB span = Some ranges /\
      tiles span start toB ranges.
Proof.
  induction fuel as [|fuel IH]; intros start toB Hfuel.
  - exists []. simpl. destruct (Z.leb_spec start toB); [lia|].
    split; [reflexivity|]. constructor; lia.
  - cbn [buildRanges_loop]. destruct (Z.leb_spec start toB) as [Hle|Hgt].
    + destruct (IH (Z.min (start + span - 1) toB + 1) toB) as (rs & -> & Ht);
        [lia|].
      eexists; split; [reflexivity|]. constructor; assumption.
    + exists []. split; [reflexivity|]. constructor; lia.
Qed.

Lemma tiles_bounds start toB ranges :
  tiles span start toB ranges ->
  Forall (fun r => start <= fromBlock r /\ fromBlock r <= toBlock r /\
                   toBlock r <= toB /\ toBlock r < fromBlock r + span) ranges.
Proof.
  induction 1 as [|start toB ranges Hle _ IH]; constructor.
  - simpl; lia.
  - eapply Forall_impl; [exact IH|]. simpl; intros r ?; lia.
Qed.

Lemma tiles_head start toB r ranges :
  tiles span start toB (r :: ranges) -> fromBlock r = start.
Proof. inversion 1; reflexivity. Qed.

Lemma tiles_chained start toB ranges :
  tiles span start toB ranges ->
  forall i r r',
    ranges !! i = Some r -> ranges !! S i = Some r' ->
    fromBlock r' = toBlock r + 1.
Proof.
  induction 1 as [|start toB ranges Hle Ht IH]; intros i r r' Hi Hi'.
  - discriminate.
  - destruct i as [|i]; simpl in *.
    + injection Hi as <-. destruct ranges as [|r0 rs]; [discriminate|].
      simpl in Hi'. injection Hi' as <-.
      apply tiles_head in Ht. simpl. exact Ht.
    + eapply IH; eassumption.
Qed.

Lemma tiles_ordered start toB ranges :
  tiles span start toB ranges ->
  forall i j ri rj,
    (i < j)%nat -> ranges !! i = Some ri -> ranges !! j = Some rj ->
    toBlock ri < fromBlock rj.
Proof.
  induction 1 as [|start toB ranges Hle Ht IH]; intros i j ri rj Hij Hi Hj.
  - discriminate.
  - destruct j as [|j]; [lia|]. simpl in Hj.
    destruct i as [|i]; simpl in Hi.
    + injection Hi as <-. simpl.
      apply tiles_bounds in Ht. rewrite Forall_forall in Ht.
      apply list_elem_of_lookup_2, Ht in Hj. lia.
    + eapply IH; [|eassumption..]. lia.
Qed.

Lemma tiles_last start toB ranges :
  tiles span start toB ranges -> start <= toB ->
  exists r, last ranges = Some r /\ toBlock r = toB.
Proof.
  induction 1 as [|start toB ranges Hle Ht IH]; intros Hst; [lia|].
  destruct (Z_lt_le_dec (Z.min (start + span - 1) toB) toB) as [Hlt|Hge].
  - destruct IH as (r & Hr & Hto); [lia|].
    exists r. split; [|assumption].
    destruct ranges; [discriminate|]. exact Hr.
  - inversion Ht; subst; [|lia]. eexists; split; [reflexivity|]. simpl; lia.
Qed.

Lemma tiles_full_span start toB ranges :
  tiles span start toB ranges ->
  forall i r,
    ranges !! i = Some r -> (S i < length ranges)%nat ->
    toBlock r - fromBlock r + 1 = span.
Proof.
  induction 1 as [|start toB ranges Hle Ht IH]; intros i r Hi Hlen.
  - discriminate.
  - destruct i as [|i]; simpl in *.
    + injection Hi as <-. simpl.
      destruct (Z_lt_le_dec (start + span - 1) toB); [lia|].
      inversion Ht; subst; [simpl in Hlen|]; lia.
    + eapply IH; [eassumption|lia].
Qed.

Lemma tiles_cover start toB ranges :
  tiles span start toB ranges ->
  forall b, start <= b <= toB -> exists i r, ranges !! i = Some r /\ in_window b r.
Proof.
  induction 1 as [|start toB ranges Hle Ht IH]; intros b Hb; [lia|].
  destruct (Z_le_gt_dec b (Z.min (start + span - 1) toB)) as [Hin|Hout].
  - exists O, (mkRange start (Z.min (start + span - 1) toB)).
    split; [reflexivity|]. unfold in_window; simpl; lia.
  - destruct (IH b) as (i & r & Hi & Hr); [lia|].
    exists (S i), r. split; assumption.
Qed.

Lemma tiles_length start toB ranges :
  tiles span start toB ranges -> start <= toB + 1 ->
  Z.of_nat (length ranges) = ceil_div (toB - start + 1) span.
Proof.
  unfold ceil_div.
  induction 1 as [|start toB ranges Hle Ht IH]; intros Hst.
  - simpl. symmetry. apply Z.div_small. lia.
  - rewrite length_cons, Nat2Z.inj_succ.
    destruct (Z_lt_le_dec (start + span - 1) toB) as [Hlt|Hge].
    + rewrite IH by lia.
      replace (Z.min (start + span - 1) toB) with (start + span - 1) by lia.
      replace (toB - start + 1 + span - 1)
        with (toB - (start + span - 1 + 1) + 1 + span - 1 + 1 * span) by lia.
      rewrite Z.div_add by lia. lia.
    + inversion Ht; subst; [|lia]. simpl.
      replace (toB - start + 1 + span - 1) with (toB - start + 1 * span) by lia.
      rewrite Z.div_add by lia. rewrite Z.div_small by lia. reflexivity.
Qed.

Lemma ceil_div_spec a :
  span * (ceil_div a span - 1) < a <= span * ceil_div a span.
Proof.
  unfold ceil_div.
  pose proof (Z.div_mod (a + span - 1) span ltac:(lia)) as Hdm.
  pose proof (Z.mod_pos_bound (a + span - 1) span ltac:(lia)) as Hb.
  lia.
Qed.

End RangePlanner.

(** The planner on exact integers: for [from <= to] and [span >= 1] it
    returns a window list that starts at [from], is chained, ordered and
    non-overlapping, ends at [to], has every window but the last exactly
    [span] blocks long, puts every block of [from..to] in exactly one window
    and no other block in any, and has ceil((to-from+1)/span) windows. *)
Theorem buildRangesForward_tiling (fromB toB span : Z) :
  fromB <= toB -> 1 <= span ->
  exists ranges,
    buildRangesForward fromB toB span = Some ranges /\
    (fromBlock <$> head ranges) = Some fromB /\
    (toBlock <$> last ranges) = Some toB /\
    (forall i r r', ranges !! i = Some r -> ranges !! S i = Some r' ->
                    fromBlock r' = toBlock r + 1) /\
    (forall i j ri rj, (i < j)%nat -> ranges !! i = Some ri ->
                       ranges !! j = Some rj -> toBlock ri < fromBlock rj) /\
    (forall i r, ranges !! i = Some r ->
                 fromBlock r <= toBlock r /\
                 ((S i < length ranges)%nat -> toBlock r - fromBlock r + 1 = span)) /\
    (forall b, fromB <= b <= toB <->
               exists i r, ranges !! i = Some r /\ in_window b r) /\
    (forall b i j ri rj, ranges !! i = Some ri -> ranges !! j = Some rj ->
                         in_window b ri -> in_window b rj -> i = j) /\
    Z.of_nat (length ranges) = ceil_div (toB - fromB + 1) span /\
    span * (Z.of_nat (length ranges) - 1) < toB - fromB + 1
      <= span * Z.of_nat (length ranges) /\
    (fromB = toB -> ranges = [mkRange fromB fromB]).
Proof.
  intros Hle Hspan.
  destruct (buildRanges_loop_tiles span Hspan (Z.to_nat (toB - fromB + 1))
              fromB toB) as (ranges & Hrun & Ht); [lia|].
  assert (Hbounds : forall r, r ∈ ranges ->
            fromB <= fromBlock r /\ fromBlock r <= toBlock r /\
            toBlock r <= toB /\ toBlock r < fromBlock r + span).
  { apply Forall_forall. eapply tiles_bounds; eassumption. }
  assert (Hord : forall i j ri rj, (i < j)%nat -> ranges !! i = Some ri ->
            ranges !! j = Some rj -> toBlock ri < fromBlock rj).
  { eapply tiles_ordered; eassumption. }
  assert (Hlen : Z.of_nat (length ranges) = ceil_div (toB - fromB + 1) span).
  { eapply tiles_length; [eassumption..|lia]. }
  pose proof (ceil_div_spec span Hspan (toB - fromB + 1)) as Hceil.
  rewrite <- Hlen in Hceil.
  exists ranges. split; [exact Hrun|].
  repeat match goal with |- _ /\ _ => split end; try apply Hceil.
  - inversion Ht; subst; [lia|reflexivity].
  - destruct (tiles_last span _ _ _ Ht Hle) as (r & -> & <-). reflexivity.
  - eapply tiles_chained; eassumption.
  - exact Hord.
  - intros i r Hi. split.
    + apply list_elem_of_lookup_2, Hbounds in Hi. lia.
    + intros Hlt. eapply tiles_full_span; eassumption.
  - intros b. split.
    + eapply tiles_cover; eassumption.
    + intros (i & r & Hi & Hr).
      apply list_elem_of_lookup_2, Hbounds in Hi.
      unfold in_window in Hr. lia.
  - intros b i j ri rj Hi Hj Hbi Hbj. unfold in_window in *.
    destruct (Nat.lt_trichotomy i j) as [Hlt|[Heq|Hgt]]; [|exact Heq|].
    + pose proof (Hord _ _ _ _ Hlt Hi Hj). lia.
    + pose proof (Hord _ _ _ _ Hgt Hj Hi). lia.
  - exact Hlen.
  - intros ->. inversion Ht as [|? ? rest _ Hrest]; subst; [lia|].
    replace (Z.min (toB + span - 1) toB) with toB in * by lia.
    inversion Hrest; subst; [reflexivity|lia].
Qed.

(** ** The planner on JavaScript numbers *)

Lemma roundF64_safe (z : Z) : - 2 ^ 53 <= z <= 2 ^ 53 -> roundF64 z = z.
Proof.
  intros Hz. unfold roundF64.
  destruct (Z.leb_spec (Z.abs z) (2 ^ 53)) as [_|Hbig]; [reflexivity|lia].
Qed.

(** Within the safe range the rounded loop and the exact loop are the same
    computation. *)
Lemma buildRanges_loop_f64_exact (toB span : Z) (fuel : nat) :
  1 <= span -> toB + span <= 2 ^ 53 ->
  forall start, - 2 ^ 53 <= start ->
    buildRanges_loop_f64 fuel start toB span = buildRanges_loop fuel start toB span.
Proof.
  intros Hspan Hhi. induction fuel as [|fuel IH]; intros start Hlo;
    cbn [buildRanges_loop_f64 buildRanges_loop];
    destruct (Z.leb_spec start toB) as [Hle|Hgt]; try reflexivity.
  rewrite (roundF64_safe (start + span)) by lia.
  rewrite (roundF64_safe (start + span - 1)) by lia.
  rewrite (roundF64_safe (Z.min (start + span - 1) toB + 1)) by lia.
  rewrite IH by lia. reflexivity.
Qed.

Lemma buildRangesForward_f64_exact (fromB toB span : Z) :
  1 <= span -> - 2 ^ 53 <= fromB -> toB + span <= 2 ^ 53 ->
  buildRangesForward_f64 fromB toB span = buildRangesForward fromB toB span.
Proof.
  intros Hspan Hlo Hhi. unfold buildRangesForward_f64, buildRangesForward.
  apply buildRanges_loop_f64_exact; assumption.
Qed.

(** C1 (amended). For [from <= to] and [span >= 1] inside the range where
    JavaScript numbers count exactly ([-2^53 <= from] and
    [to + span <= 2^53]), the planner, run with the arithmetic of JavaScript
    numbers, returns a window list that starts at [from], is chained (each
    window starts one past the end of the previous one), ordered and
    non-overlapping, ends at [to], has every window but the last exactly
    [span] blocks long, puts every block of [from..to] in exactly one window
    and no other block in any, has ceil((to-from+1)/span) windows, and is
    the single window [from..from] when [from = to]. *)
Theorem buildRangesForward_f64_tiling (fromB toB span : Z) :
  fromB <= toB -> 1 <= span ->
  - 2 ^ 53 <= fromB -> toB + span <= 2 ^ 53 ->
  exists ranges,
    buildRangesForward_f64 fromB toB span = Some ranges /\
    (fromBlock <$> head ranges) = Some fromB /\
    (toBlock <$> last ranges) = Some toB /\
    (forall i r r', ranges !! i = Some r -> ranges !! S i = Some r' ->
                    fromBlock r' = toBlock r + 1) /\
    (forall i j ri rj, (i < j)%nat -> ranges !! i = Some ri ->
                       ranges !! j = Some rj -> toBlock ri < fromBlock rj) /\
    (forall i r, ranges !! i = Some r ->
                 fromBlock r <= toBlock r /\
                 ((S i < length ranges)%nat -> toBlock r - fromBlock r + 1 = span)) /\
    (forall b, fromB <= b <= toB <->
               exists i r, ranges !! i = Some r /\ in_window b r) /\
    (forall b i j ri rj, ranges !! i = Some ri -> ranges !! j = Some rj ->
                         in_window b ri -> in_window b rj -> i = j) /\
    Z.of_nat (length ranges) = ceil_div (toB - fromB + 1) span /\
    span * (Z.of_nat (length ranges) - 1) < toB - fromB + 1
      <= span * Z.of_nat (length ranges) /\
    (fromB = toB -> ranges = [mkRange fromB fromB]).
Proof.
  intros Hle Hspan Hlo Hhi.
  rewrite (buildRangesForward_f64_exact fromB toB span Hspan Hlo Hhi).
  apply buildRangesForward_tiling; assumption.
Qed.

Lemma buildRangesForward_f64_tiling_witness :
  exists ranges,
    buildRangesForward_f64 16377000 16378000 400 = Some ranges /\
    ranges = [mkRange 16377000 16377399; mkRange 16377400 16377799;
              mkRange 16377800 16378000] /\
    Z.of_nat (length ranges) = ceil_div (16378000 - 16377000 + 1) 400.
Proof.
  destruct (buildRangesForward_f64_tiling 16377000 16378000 400)
    as (ranges & Hrun & _ & _ & _ & _ & _ & _ & _ & Hlen & _);
    [lia | lia | lia | lia |].
  exists ranges. split; [exact Hrun|]. split; [|exact Hlen].
  vm_compute in Hrun. congruence.
Defined.

(** C1, as stated for every pair of integers, fails: from 2^53 on a
    JavaScript number no longer counts by one.  With [from = 2^53],
    [to = 2^53 + 2] and [span = 1], [start + span] rounds back to 2^53, the
    window end is 2^53 - 1 and the next start is 2^53 again: the loop never
    leaves this state, whatever the number of iterations, and no window
    list is returned. *)
Lemma buildRangesForward_f64_stalls :
  roundF64 (2 ^ 53 + 1) = 2 ^ 53 /\
  (forall fuel, buildRanges_loop_f64 fuel (2 ^ 53) (2 ^ 53 + 2) 1 = None) /\
  buildRangesForward_f64 (2 ^ 53) (2 ^ 53 + 2) 1 = None /\
  (forall fuel, buildRanges_loop_f64 fuel (2 ^ 53) (2 ^ 53) 400 = None).
Proof.
  assert (Hsingle : forall fuel,
            buildRanges_loop_f64 fuel (2 ^ 53) (2 ^ 53) 400 = None).
  { induction fuel as [|fuel IH]; [vm_compute; reflexivity|].
    cbn [buildRanges_loop_f64].
    replace (2 ^ 53 <=? 2 ^ 53) with true by (vm_compute; reflexivity).
    replace (roundF64 (Z.min (roundF64 (roundF64 (2 ^ 53 + 400) - 1)) (2 ^ 53) + 1))
      with (2 ^ 53) by (vm_compute; reflexivity).
    rewrite IH. reflexivity. }
  assert (Hstall : forall fuel,
            buildRanges_loop_f64 fuel (2 ^ 53) (2 ^ 53 + 2) 1 = None).
  { induction fuel as [|fuel IH]; [vm_compute; reflexivity|].
    cbn [buildRanges_loop_f64].
    replace (2 ^ 53 <=? 2 ^ 53 + 2) with true by (vm_compute; reflexivity).
    replace (roundF64 (Z.min (roundF64 (roundF64 (2 ^ 53 + 1) - 1)) (2 ^ 53 + 2) + 1))
      with (2 ^ 53) by (vm_compute; reflexivity).
    rewrite IH. reflexivity. }
  split; [vm_compute; reflexivity|]. split; [exact Hstall|].
  split; [apply Hstall | exact Hsingle].
Qed.

Lemma buildRanges_loop_exit (fuel : nat) (start toB span : Z) :
  toB < start -> buildRanges_loop fuel start toB span = Some [].
Proof.
  intros Hlt. destruct fuel; simpl; destruct (Z.leb_spec start toB); (lia || reflexivity).
Qed.

(** C7 (amended). With [from > to] the loop body never runs: the planner
    returns the empty window list, and raises nothing. *)
Theorem buildRangesForward_reversed (fromB toB span : Z) :
  toB < fromB -> buildRangesForward fromB toB span = Some [].
Proof. intros Hlt. apply buildRanges_loop_exit. exact Hlt. Qed.

Lemma buildRangesForward_reversed_witness :
  3 < 5 /\ buildRangesForward 5 3 2 = Some [].
Proof. split; [lia|]. apply (buildRangesForward_reversed 5 3 2). lia. Defined.

(** C7, as stated, fails: for [from = 5 > to = 3] the planner returns a
    window sequence (the empty one) instead of rejecting the input. *)
Lemma buildRangesForward_reversed_returns :
  exists ranges, buildRangesForward 5 3 2 = Some ranges.
Proof. exists []. reflexivity. Qed.

Lemma buildRangesForward_tiling_witness :
  exists ranges,
    buildRangesForward 5 12 3 = Some ranges /\
    ranges = [mkRange 5 7; mkRange 8 10; mkRange 11 12] /\
    Z.of_nat (length ranges) = ceil_div (12 - 5 + 1) 3.
Proof.
  destruct (buildRangesForward_tiling 5 12 3) as (ranges & Hrun & _ & _ & _ & _ & _ & _ & _ & Hlen & _);
    [lia | lia |].
  exists ranges. split; [exact Hrun|]. split; [|exact Hlen].
  vm_compute in Hrun. congruence.
Defined.

(** ** The planner and the batching helper always return in [indexRange] *)

Lemma buildRangesForward_returns (fromB toB span : Z) :
  1 <= span -> exists ranges, buildRangesForward fromB toB span = Some ranges.
Proof.
  intros Hspan. destruct (Z_le_gt_dec fromB toB) as [Hle|Hgt].
  - destruct (buildRanges_loop_tiles span Hspan (Z.to_nat (toB - fromB + 1))
                fromB toB) as (rs & Hrs & _); [lia|].
    exists rs. exact Hrs.
  - exists []. apply buildRanges_loop_exit. lia.
Qed.

Lemma chunk_loop_returns {T} (size : nat) (fuel : nat) :
  (1 <= size)%nat ->
  forall rest : list T, (length rest <= fuel)%nat ->
    exists chunks, chunk_loop fuel rest size = Some chunks /\ concat chunks = rest.
Proof.
  intros Hsize. induction fuel as [|fuel IH]; intros rest Hlen.
  - destruct rest; [|simpl in Hlen; lia]. exists []. split; reflexivity.
  - destruct rest as [|x rest]; [exists []; split; reflexivity|].
    cbn [chunk_loop].
    destruct (IH (drop size (x :: rest))) as (chunks & -> & Hcat).
    { rewrite length_drop. simpl in *. lia. }
    eexists; split; [reflexivity|].
    cbn [concat]. rewrite Hcat. apply take_drop.
Qed.

Lemma chunkArray_returns {T} (arr : list T) (size : nat) :
  (1 <= size)%nat ->
  exists chunks, chunkArray arr size = Some chunks /\ concat chunks = arr.
Proof. intros Hsize. apply chunk_loop_returns; [assumption|lia]. Qed.

(** ** The ledger table *)

Lemma updateUnique_empty k t : updateUnique k emptyUpdate t = t.
Proof.
  induction t as [|r t IH]; simpl; [reflexivity|].
  destruct (hasKey k r); [reflexivity|]. now rewrite IH.
Qed.

Lemma upsert_empty_update t c :
  fst (upsert t (keyOf c) emptyUpdate c) = addIfAbsent t c.
Proof.
  unfold upsert, addIfAbsent.
  destruct (findUnique (keyOf c) t); simpl; [apply updateUnique_empty|reflexivity].
Qed.

Lemma hasKey_keyOf k r : hasKey k r = true <-> keyOf r = k.
Proof.
  unfold hasKey, keyOf. destruct k as [h i]; simpl.
  rewrite andb_true_iff, String.eqb_eq, Z.eqb_eq.
  split; [intros [-> ->]; reflexivity | intros [= -> ->]; split; reflexivity].
Qed.

Lemma findUnique_None k t : findUnique k t = None <-> k ∉ map keyOf t.
Proof.
  unfold findUnique. induction t as [|r t IH]; simpl.
  - split; [intros _; apply not_elem_of_nil | reflexivity].
  - rewrite not_elem_of_cons. destruct (hasKey k r) eqn:Hk.
    + apply hasKey_keyOf in Hk. split; [discriminate | intros [Hne _]; congruence].
    + rewrite IH. split; [|tauto]. intros Hn. split; [|exact Hn].
      intros ->. rewrite (proj2 (hasKey_keyOf _ _) eq_refl) in Hk. discriminate.
Qed.

Lemma findUnique_Some k t row :
  findUnique k t = Some row -> row ∈ t /\ keyOf row = k.
Proof.
  unfold findUnique. intros Hf. apply find_some in Hf as [Hin Hk].
  split; [apply list_elem_of_In; exact Hin | apply hasKey_keyOf; exact Hk].
Qed.

Lemma addIfAbsent_has_key t c : keyOf c ∈ map keyOf (addIfAbsent t c).
Proof.
  unfold addIfAbsent. destruct (findUnique (keyOf c) t) as [row|] eqn:Hf.
  - apply findUnique_Some in Hf as [Hin Hk]. rewrite <- Hk.
    apply list_elem_of_In, in_map, list_elem_of_In. exact Hin.
  - rewrite map_app. apply elem_of_app. right. simpl. apply list_elem_of_here.
Qed.

Lemma addIfAbsent_keeps_keys t c k :
  k ∈ map keyOf t -> k ∈ map keyOf (addIfAbsent t c).
Proof.
  unfold addIfAbsent. destruct (findUnique (keyOf c) t); [tauto|].
  intros Hk. rewrite map_app. apply elem_of_app. left. exact Hk.
Qed.

Lemma addIfAbsent_present t c :
  keyOf c ∈ map keyOf t -> addIfAbsent t c = t.
Proof.
  intros Hk. unfold addIfAbsent.
  destruct (findUnique (keyOf c) t) eqn:Hf; [reflexivity|].
  apply findUnique_None in Hf. contradiction.
Qed.

Lemma addIfAbsent_NoDup t c :
  NoDup (map keyOf t) -> NoDup (map keyOf (addIfAbsent t c)).
Proof.
  intros Hnd. unfold addIfAbsent.
  destruct (findUnique (keyOf c) t) eqn:Hf; [exact Hnd|].
  apply findUnique_None in Hf. rewrite map_app. simpl.
  apply NoDup_app. split; [exact Hnd|]. split.
  - intros k Hk Hin. apply list_elem_of_singleton in Hin. subst. contradiction.
  - apply NoDup_singleton.
Qed.

(** Replaying a sequence of writes on the table it produced changes
    nothing. *)
Lemma replay_writes_fixed (ws : list TreasuryTransfer) :
  forall t,
    (forall c, c ∈ ws -> keyOf c ∈ map keyOf t) ->
    foldl addIfAbsent t ws = t.
Proof.
  induction ws as [|c ws IH]; intros t Hin; simpl; [reflexivity|].
  rewrite addIfAbsent_present by (apply Hin; apply list_elem_of_here).
  apply IH. intros c' Hc'. apply Hin. apply list_elem_of_further. exact Hc'.
Qed.

Lemma writes_keys_present (ws : list TreasuryTransfer) :
  forall t,
    (forall k, k ∈ map keyOf t -> k ∈ map keyOf (foldl addIfAbsent t ws)) /\
    (forall c, c ∈ ws -> keyOf c ∈ map keyOf (foldl addIfAbsent t ws)).
Proof.
  induction ws as [|c ws IH]; intros t; simpl.
  - split; [tauto|]. intros c Hc. apply elem_of_nil in Hc. contradiction.
  - destruct (IH (addIfAbsent t c)) as [Hkeep Hnew]. split.
    + intros k Hk. apply Hkeep, addIfAbsent_keeps_keys, Hk.
    + intros c' Hc'. apply elem_of_cons in Hc' as [->|Hc'].
      * apply Hkeep, addIfAbsent_has_key.
      * apply Hnew, Hc'.
Qed.

Lemma replay_writes_idempotent (ws : list TreasuryTransfer) (t : Table) :
  foldl addIfAbsent (foldl addIfAbsent t ws) ws = foldl addIfAbsent t ws.
Proof. apply replay_writes_fixed. apply writes_keys_present. Qed.

(** ** The loop body *)

Section LoopBody.

Context {E : Externals}.

Lemma resolveLog_Ready log token valueWei c :
  resolveLog log = Ready token valueWei c ->
  exists tf tt tx sender contrib,
    tokenAddrMap !! toLowerCase (log_address log) = Some token /\
    topicAddressAt log 1 = Some tf /\
    topicAddressAt log 2 = Some tt /\
    BigInt (log_data log) = Some valueWei /\
    getTransaction (log_transactionHash log) = TxFound tx /\
    getAddress (tx_from tx) = Some sender /\
    computeContributor tf sender = Some contrib /\
    c = {| txHash := log_transactionHash log;
           logIndex := log_index log;
           blockNumber := log_blockNumber log;
           tokenSymbol := symbol token;
           tokenAddress := address token;
           treasury := tt;
           proxyUsed := includes PROXY_ADDRESSES (toLowerCase tf);
           txFrom := sender;
           transferFrom := tf;
           transferTo := tt;
           contributor := contrib;
           amountRaw := bigintToString valueWei;
           amountFormatted := formatUnits valueWei (decimals token) |}.
Proof.
  unfold resolveLog. intros H.
  repeat case_match; try discriminate.
  injection H as <- <- <-.
  do 5 eexists. repeat split; try eassumption; reflexivity.
Qed.

Lemma resolveLog_found log token valueWei tf tt tx sender contrib :
  tokenAddrMap !! toLowerCase (log_address log) = Some token ->
  topicAddressAt log 1 = Some tf ->
  topicAddressAt log 2 = Some tt ->
  BigInt (log_data log) = Some valueWei ->
  getTransaction (log_transactionHash log) = TxFound tx ->
  getAddress (tx_from tx) = Some sender ->
  computeContributor tf sender = Some contrib ->
  formatUnitsOverflows valueWei (decimals token) = false ->
  resolveLog log =
    Ready token valueWei
      {| txHash := log_transactionHash log;
         logIndex := log_index log;
         blockNumber := log_blockNumber log;
         tokenSymbol := symbol token;
         tokenAddress := address token;
         treasury := tt;
         proxyUsed := includes PROXY_ADDRESSES (toLowerCase tf);
         txFrom := sender;
         transferFrom := tf;
         transferTo := tt;
         contributor := contrib;
         amountRaw := bigintToString valueWei;
         amountFormatted := formatUnits valueWei (decimals token) |}.
Proof.
  intros Htok Hf Ht Hv Htx Hs Hc Hfits. unfold resolveLog.
  rewrite Htok, Hf, Ht, Hv, Htx, Hs, Hc, Hfits. reflexivity.
Qed.

Lemma resolveLog_overflow log token valueWei tf tt tx sender contrib :
  tokenAddrMap !! toLowerCase (log_address log) = Some token ->
  topicAddressAt log 1 = Some tf ->
  topicAddressAt log 2 = Some tt ->
  BigInt (log_data log) = Some valueWei ->
  getTransaction (log_transactionHash log) = TxFound tx ->
  getAddress (tx_from tx) = Some sender ->
  computeContributor tf sender = Some contrib ->
  formatUnitsOverflows valueWei (decimals token) = true ->
  resolveLog log = Raised.
Proof.
  intros Htok Hf Ht Hv Htx Hs Hc Hover. unfold resolveLog.
  rewrite Htok, Hf, Ht, Hv, Htx, Hs, Hc, Hover. reflexivity.
Qed.

Lemma resolveLog_Ready_fits log token valueWei c :
  resolveLog log = Ready token valueWei c ->
  formatUnitsOverflows valueWei (decimals token) = false.
Proof.
  unfold resolveLog. intros H.
  repeat case_match; try discriminate.
  injection H as <- <- <-. assumption.
Qed.

Lemma resolveLog_key log token valueWei c :
  resolveLog log = Ready token valueWei c ->
  keyOf c = (log_transactionHash log, log_index log).
Proof.
  intros H. apply resolveLog_Ready in H
    as (tf & tt & tx & sender & contrib & _ & _ & _ & _ & _ & _ & _ & ->).
  reflexivity.
Qed.

(** What the loop body does to the run state once a row is built. *)
Lemma processLog_Ready st log token valueWei c :
  resolveLog log = Ready token valueWei c ->
  processLog st log =
    (mkState
       (if upsertFails c then db st else addIfAbsent (db st) c)
       (<[symbol token := default 0 (totalWeiByToken st !! symbol token) + valueWei]>
          (totalWeiByToken st))
       (if upsertFails c then totalRecords st else totalRecords st + 1),
     Completed).
Proof.
  intros H. unfold processLog. rewrite H.
  rewrite <- (resolveLog_key _ _ _ _ H), upsert_empty_update.
  destruct (upsertFails c); reflexivity.
Qed.

End LoopBody.

(** ** Runs on two tables side by side

    The control flow of [indexRange] never looks at the table, so two runs
    against different tables take the same path and attempt the same writes.
    Any relation between tables that is kept by adding the same created row
    on both sides is therefore kept by a whole run. *)
Section SideBySide.

Context {E : Externals}.
Variable P : Table -> Table -> Prop.
Hypothesis P_step :
  forall a b c, P a b -> created c -> P (addIfAbsent a c) (addIfAbsent b c).

Lemma processLog_related s1 s2 log :
  related P s1 s2 ->
  related P (processLog s1 log).1 (processLog s2 log).1 /\
  (processLog s1 log).2 = (processLog s2 log).2.
Proof.
  intros (HP & Htot & Hcnt).
  destruct (resolveLog log) as [| | |token v c] eqn:Hres.
  1-3: unfold processLog; rewrite Hres; simpl; repeat split; assumption.
  rewrite !(processLog_Ready _ _ _ _ _ Hres). simpl.
  rewrite Htot, Hcnt. split; [|reflexivity].
  destruct (upsertFails c) eqn:Hf; repeat split; simpl; try assumption.
  apply P_step; [assumption|]. exists log, token, v. split; assumption.
Qed.

Lemma processLogs_related logs :
  forall s1 s2,
    related P s1 s2 ->
    related P (processLogs s1 logs).1 (processLogs s2 logs).1 /\
    (processLogs s1 logs).2 = (processLogs s2 logs).2.
Proof.
  induction logs as [|log logs IH]; intros s1 s2 Hrel; simpl.
  - split; [assumption|reflexivity].
  - destruct (processLog_related s1 s2 log Hrel) as [Hrel' Hc].
    destruct (processLog s1 log) as [s1' c1], (processLog s2 log) as [s2' c2].
    simpl in *. subst c2. destruct c1; [apply IH; assumption|].
    split; [assumption|reflexivity].
Qed.

Lemma processResults_related results :
  forall s1 s2,
    related P s1 s2 ->
    related P (processResults s1 results).1 (processResults s2 results).1 /\
    (processResults s1 results).2 = (processResults s2 results).2.
Proof.
  induction results as [|logs results IH]; intros s1 s2 Hrel; simpl.
  - split; [assumption|reflexivity].
  - destruct (processLogs_related logs s1 s2 Hrel) as [Hrel' Hc].
    destruct (processLogs s1 logs) as [s1' c1], (processLogs s2 logs) as [s2' c2].
    simpl in *. subst c2. destruct c1; [apply IH; assumption|].
    split; [assumption|reflexivity].
Qed.

Lemma processBatch_related s1 s2 batch :
  related P s1 s2 -> related P (processBatch s1 batch) (processBatch s2 batch).
Proof.
  intros Hrel. unfold processBatch.
  destruct (promiseAll _) as [results|]; [|assumption].
  apply processResults_related. assumption.
Qed.

Lemma runBatches_related batches :
  forall s1 s2,
    related P s1 s2 -> related P (runBatches s1 batches) (runBatches s2 batches).
Proof.
  unfold runBatches.
  induction batches as [|batch batches IH]; intros s1 s2 Hrel; simpl.
  - assumption.
  - apply IH, processBatch_related, Hrel.
Qed.

Lemma indexRange_related t1 t2 fromB toB :
  P t1 t2 ->
  exists s1 s2,
    indexRange t1 fromB toB = Some s1 /\
    indexRange t2 fromB toB = Some s2 /\
    related P s1 s2.
Proof.
  intros HP. unfold indexRange.
  destruct (buildRangesForward_returns fromB toB BLOCK_SPAN) as (ranges & ->);
    [unfold BLOCK_SPAN; lia|].
  destruct (chunkArray_returns ranges MAX_CONCURRENCY) as (batches & -> & _);
    [unfold MAX_CONCURRENCY; lia|].
  do 2 eexists. split; [reflexivity|]. split; [reflexivity|].
  apply runBatches_related. repeat split; assumption.
Qed.

End SideBySide.

(** ** Case-insensitive membership *)

Lemma lowerAscii_idem c : lowerAscii (lowerAscii c) = lowerAscii c.
Proof. destruct c as [[] [] [] [] [] [] [] []]; reflexivity. Qed.

Lemma toLowerCase_idem s : toLowerCase (toLowerCase s) = toLowerCase s.
Proof.
  induction s as [|c s IH]; simpl; [reflexivity|].
  now rewrite lowerAscii_idem, IH.
Qed.

Lemma PROXY_ADDRESSES_lower p : p ∈ PROXY_ADDRESSES -> toLowerCase p = p.
Proof.
  unfold PROXY_ADDRESSES. intros Hp.
  apply list_elem_of_singleton in Hp as ->. apply toLowerCase_idem.
Qed.

Lemma includes_spec xs x : includes xs x = true <-> x ∈ xs.
Proof.
  unfold includes. rewrite existsb_exists. split.
  - intros (y & Hin & Heq). apply String.eqb_eq in Heq as ->.
    apply list_elem_of_In. exact Hin.
  - intros Hin. exists x. split; [apply list_elem_of_In; exact Hin|].
    apply String.eqb_refl.
Qed.

Lemma includes_proxy a :
  includes PROXY_ADDRESSES (toLowerCase a) = true <-> isKnownProxy a.
Proof.
  rewrite includes_spec. unfold isKnownProxy. split.
  - intros Hin. exists (toLowerCase a). split; [exact Hin|]. apply toLowerCase_idem.
  - intros (p & Hin & Heq). rewrite <- Heq, (PROXY_ADDRESSES_lower p Hin). exact Hin.
Qed.

Lemma token_map_lookup_None (tokens : list Token) :
  forall (m : gmap string Token) k,
    m !! k = None ->
    (forall t, t ∈ tokens -> toLowerCase (address t) <> k) ->
    foldl (fun m t => <[toLowerCase (address t) := t]> m) m tokens !! k = None.
Proof.
  induction tokens as [|t tokens IH]; intros m k Hm Hk; simpl; [exact Hm|].
  apply IH.
  - rewrite lookup_insert_ne; [exact Hm|]. apply Hk, list_elem_of_here.
  - intros t' Ht'. apply Hk, list_elem_of_further, Ht'.
Qed.

Lemma tokenAddrMap_untracked a :
  ~ isTracked a -> tokenAddrMap !! toLowerCase a = None.
Proof.
  intros Hno. unfold tokenAddrMap. apply token_map_lookup_None.
  - apply lookup_empty.
  - intros t Ht Heq. apply Hno. exists t. split; assumption.
Qed.

(** ** Strings *)

Lemma substring_whole (s : string) :
  forall n, (String.length s <= n)%nat -> String.substring 0 n s = s.
Proof.
  induction s as [|c s IH]; intros n Hn.
  - destruct n; reflexivity.
  - destruct n as [|n]; [simpl in Hn; lia|].
    simpl. rewrite IH by (simpl in Hn; lia). reflexivity.
Qed.

Lemma substring_after (pre s : string) (n : nat) :
  String.substring (String.length pre) n (pre +:+ s) = String.substring 0 n s.
Proof. induction pre as [|c pre IH]; simpl; [reflexivity|exact IH]. Qed.

Lemma length_append (a b : string) :
  String.length (a +:+ b) = (String.length a + String.length b)%nat.
Proof. induction a as [|c a IH]; simpl; [reflexivity|now rewrite IH]. Qed.

Lemma sliceLast_suffix (n : nat) (pre body : string) :
  String.length body = n -> sliceLast n (pre +:+ body) = body.
Proof.
  intros Hlen. unfold sliceLast. rewrite length_append, Hlen.
  replace (String.length pre + n - n)%nat with (String.length pre) by lia.
  rewrite substring_after. apply substring_whole. lia.
Qed.

Lemma sliceLast_short (n : nat) (s : string) :
  (String.length s <= n)%nat -> sliceLast n s = s.
Proof.
  intros Hlen. unfold sliceLast.
  replace (String.length s - n)%nat with O by lia.
  apply substring_whole. exact Hlen.
Qed.

Lemma substring_split (s : string) :
  forall k, (k <= String.length s)%nat ->
    s = String.substring 0 k s +:+ String.substring k (String.length s - k) s.
Proof.
  induction s as [|c s IH]; intros k Hk.
  - destruct k; reflexivity.
  - destruct k as [|k].
    + simpl. rewrite substring_whole by lia. reflexivity.
    + simpl.
      change (String c s = String c (String.substring 0 k s +:+
                                     String.substring k (String.length s - k) s)).
      f_equal. apply IH. simpl in Hk. lia.
Qed.

Lemma substring_length (s : string) :
  forall k m, (k + m <= String.length s)%nat ->
    String.length (String.substring k m s) = m.
Proof.
  induction s as [|c s IH]; intros k m Hkm.
  - simpl in Hkm. assert (k = O) by lia. assert (m = O) by lia. subst.
    reflexivity.
  - destruct k as [|k].
    + destruct m as [|m]; [reflexivity|].
      cbn [String.substring String.length]. rewrite IH by (simpl in Hkm; lia).
      reflexivity.
    + cbn [String.substring]. apply IH. simpl in Hkm. lia.
Qed.

(** [s.slice(-n)] is the end of [s]: [n] characters of it when [s] has that
    many, all of [s] otherwise. *)
Lemma sliceLast_split (n : nat) (s : string) :
  exists pre,
    s = pre +:+ sliceLast n s /\
    (String.length (sliceLast n s) = n \/
     (pre = EmptyString /\ (String.length s < n)%nat)).
Proof.
  destruct (le_lt_dec n (String.length s)) as [Hlong|Hshort].
  - exists (String.substring 0 (String.length s - n) s). unfold sliceLast. split.
    + rewrite (substring_split s (String.length s - n)) at 1 by lia.
      do 2 f_equal. lia.
    + left. apply substring_length. lia.
  - exists EmptyString. rewrite sliceLast_short by lia.
    split; [reflexivity|]. right. split; [reflexivity|exact Hshort].
Qed.

(** ** Claims about the run *)

Lemma promiseAll_rejects {A} (ps : list (option A)) :
  None ∈ ps -> promiseAll ps = None.
Proof.
  induction ps as [|p ps IH]; intros Hin.
  - apply elem_of_nil in Hin. contradiction.
  - apply elem_of_cons in Hin as [<-|Hin]; [reflexivity|].
    simpl. rewrite (IH Hin). destruct p; reflexivity.
Qed.

(** C2 (amended). When the log query of one window of a batch is rejected,
    [Promise.all] rejects and the whole [try] block of that batch is left:
    no window of the batch is processed and the batch leaves the table, the
    totals and the record count as they were.  The batches before and after
    it run as if it were not there. *)
Theorem batch_fetch_failure_skips_batch {E : Externals}
    (st : RunState) (before : list (list BlockRange)) (batch : list BlockRange)
    (after : list (list BlockRange)) (r : BlockRange) :
  r ∈ batch -> getLogs (filterFor r) = None ->
  processBatch st batch = st /\
  runBatches st (before ++ batch :: after) = runBatches (runBatches st before) after.
Proof.
  intros Hin Hfail.
  assert (Hskip : forall s, processBatch s batch = s).
  { intros s. unfold processBatch. rewrite promiseAll_rejects; [reflexivity|].
    rewrite <- Hfail.
    apply list_elem_of_In, (in_map (fun w => getLogs (filterFor w))), list_elem_of_In.
    exact Hin. }
  split; [apply Hskip|].
  unfold runBatches. rewrite foldl_app. simpl. now rewrite Hskip.
Qed.

Lemma batch_fetch_failure_skips_batch_witness :
  @runBatches Sample.worldOutage Sample.emptyState
     ([] ++ [mkRange 0 399; mkRange 400 799] :: [[mkRange 800 1199]])
  = mkState [Sample.rowLate] {[ "AXS" := 10 ]} 1.
Proof.
  rewrite (proj2 (@batch_fetch_failure_skips_batch Sample.worldOutage
                    Sample.emptyState [] [mkRange 0 399; mkRange 400 799]
                    [[mkRange 800 1199]] (mkRange 0 399)
                    ltac:(apply list_elem_of_here) eq_refl)).
  vm_compute. reflexivity.
Defined.

(** C2, as stated, fails: blocks 0..399 and 400..799 form one batch; the
    query for 0..399 is rejected, the query for 400..799 returns one
    transfer that would be recorded on its own, and the run records
    nothing. *)
Lemma outage_loses_sibling_window :
  buildRangesForward 0 799 BLOCK_SPAN = Some [mkRange 0 399; mkRange 400 799] /\
  chunkArray [mkRange 0 399; mkRange 400 799] MAX_CONCURRENCY
    = Some [[mkRange 0 399; mkRange 400 799]] /\
  @getLogs Sample.worldOutage (filterFor (mkRange 0 399)) = None /\
  @getLogs Sample.worldOutage (filterFor (mkRange 400 799))
    = Some [Sample.logDirect] /\
  @processLogs Sample.worldOutage Sample.emptyState [Sample.logDirect]
    = (mkState [Sample.rowDirect] {[ "WETH" := 5 ]} 1, Completed) /\
  @indexRange Sample.worldOutage [] 0 799 = Some Sample.emptyState.
Proof. vm_compute. repeat split; reflexivity. Qed.

(** C3 (amended). For every log for which a row is built, the per-token
    total grows by the amount whatever the write does; the record count
    grows by one when the write returns (a new row or a key that is already
    there) and stays when the store rejects the write; the table gains the
    row only when its key is new and the store accepts it. *)
Theorem processLog_accounting {E : Externals}
    (st : RunState) (log : Log) (token : Token) (valueWei : Z)
    (c : TreasuryTransfer) :
  resolveLog log = Ready token valueWei c ->
  let st' := (processLog st log).1 in
  amountRaw c = bigintToString valueWei /\
  tokenSymbol c = symbol token /\
  totalWeiByToken st' =
    <[symbol token := default 0 (totalWeiByToken st !! symbol token) + valueWei]>
      (totalWeiByToken st) /\
  (upsertFails c = true ->
     db st' = db st /\ totalRecords st' = totalRecords st) /\
  (upsertFails c = false ->
     totalRecords st' = totalRecords st + 1 /\
     (keyOf c ∈ map keyOf (db st) -> db st' = db st) /\
     (keyOf c ∉ map keyOf (db st) -> db st' = db st ++ [c])).
Proof.
  intros Hres st'. subst st'. rewrite (processLog_Ready _ _ _ _ _ Hres). simpl.
  pose proof (resolveLog_Ready _ _ _ _ Hres)
    as (tf & tt & tx & sender & contrib & _ & _ & _ & _ & _ & _ & _ & Hc).
  split; [subst c; reflexivity|]. split; [subst c; reflexivity|].
  split; [reflexivity|]. split.
  - intros ->. split; reflexivity.
  - intros ->. split; [reflexivity|]. split.
    + apply addIfAbsent_present.
    + intros Hnew. unfold addIfAbsent.
      now rewrite (proj2 (findUnique_None _ _) Hnew).
Qed.

Lemma processLog_accounting_witness :
  let st := mkState [Sample.rowViaProxy] {[ "AXS" := 7 ]} 1 in
  let st' := (@processLog Sample.world st Sample.logViaProxy).1 in
  @resolveLog Sample.world Sample.logViaProxy
    = Ready (mkToken "AXS" "0x97a9107c1793bc407d6f527b77e7fff4d812bece" 18)
            1000000000000000000 Sample.rowViaProxy /\
  totalWeiByToken st' = <[ "AXS" := 7 + 1000000000000000000 ]> {[ "AXS" := 7 ]} /\
  totalRecords st' = 1 + 1 /\
  db st' = [Sample.rowViaProxy].
Proof.
  intros st st'.
  assert (Hres : @resolveLog Sample.world Sample.logViaProxy
                 = Ready (mkToken "AXS" "0x97a9107c1793bc407d6f527b77e7fff4d812bece" 18)
                         1000000000000000000 Sample.rowViaProxy)
    by (vm_compute; reflexivity).
  destruct (@processLog_accounting Sample.world st Sample.logViaProxy _ _ _ Hres)
    as (_ & _ & Htot & _ & Hok).
  destruct (Hok eq_refl) as (Hcnt & Hold & _).
  split; [exact Hres|]. split; [exact Htot|]. split; [exact Hcnt|].
  apply Hold. apply list_elem_of_here.
Defined.

(** C3, as stated, fails: on a key conflict the total and the record count
    both grow although nothing is inserted, and when the store rejects the
    write the total still grows. *)
Lemma accounting_moves_without_insert :
  @processLog Sample.world
     (mkState [Sample.rowViaProxy] {[ "AXS" := 1000000000000000000 ]} 1)
     Sample.logViaProxy
  = (mkState [Sample.rowViaProxy] {[ "AXS" := 2000000000000000000 ]} 2, Completed) /\
  @processLog Sample.worldStoreDown Sample.emptyState Sample.logViaProxy
  = (mkState [] {[ "AXS" := 1000000000000000000 ]} 0, Completed).
Proof. vm_compute. split; reflexivity. Qed.

(** C4. Running [indexRange] over a block range and then again over the
    same range, against the same provider and store behaviour, leaves the
    table exactly as the first run left it, and the second run returns the
    same per-token totals and record count as the first; if the keys of the
    table were distinct before, they are distinct after. *)
Theorem indexRange_rerun {E : Externals} (t : Table) (fromB toB : Z) :
  exists once twice,
    indexRange t fromB toB = Some once /\
    indexRange (db once) fromB toB = Some twice /\
    db twice = db once /\
    totalWeiByToken twice = totalWeiByToken once /\
    totalRecords twice = totalRecords once /\
    (NoDup (map keyOf t) ->
     NoDup (map keyOf (db once)) /\ NoDup (map keyOf (db twice))).
Proof.
  destruct (indexRange_related (fun a _ => NoDup (map keyOf t) -> NoDup (map keyOf a))
              ltac:(intros a b c Ha _ Hnd; apply addIfAbsent_NoDup, Ha, Hnd)
              t t fromB toB (fun H => H))
    as (once & once' & Hrun & _ & Hdistinct & _).
  destruct (indexRange_related
              (fun a b => exists ws, a = foldl addIfAbsent t ws /\
                                     b = foldl addIfAbsent (db once) ws)
              ltac:(intros a b c (ws & -> & ->) _; exists (ws ++ [c]);
                    rewrite !foldl_snoc; split; reflexivity)
              t (db once) fromB toB ltac:(exists []; split; reflexivity))
    as (s1 & twice & Hrun1 & Hrun2 & (ws & Hdb1 & Hdb2) & Htot & Hcnt).
  assert (s1 = once) as -> by congruence.
  assert (Hsame : db twice = db once).
  { rewrite Hdb2, Hdb1. apply replay_writes_idempotent. }
  exists once, twice. repeat split; try assumption; try congruence.
  - apply Hdistinct. assumption.
  - rewrite Hsame. apply Hdistinct. assumption.
Qed.

Lemma indexRange_rerun_witness :
  exists once twice,
    @indexRange Sample.world [Sample.rowLate] 0 1199 = Some once /\
    @indexRange Sample.world (db once) 0 1199 = Some twice /\
    db once = [Sample.rowLate; Sample.rowViaProxy; Sample.rowDirect] /\
    db twice = db once /\
    totalWeiByToken twice = totalWeiByToken once /\
    totalRecords twice = totalRecords once /\
    NoDup (map keyOf (db twice)).
Proof.
  destruct (@indexRange_rerun Sample.world [Sample.rowLate] 0 1199)
    as (once & twice & H1 & H2 & Hdb & Htot & Hcnt & Hnd).
  exists once, twice. split; [exact H1|]. split; [exact H2|].
  split; [vm_compute in H1; injection H1 as <-; reflexivity|].
  split; [exact Hdb|]. split; [exact Htot|]. split; [exact Hcnt|].
  apply Hnd. simpl. apply NoDup_singleton.
Defined.

(** C5. For a log of a tracked token whose topics and amount decode and
    whose transaction is found, with a checksummed sender address: unless
    [formatUnits] throws on the amount, in which case the loop body throws
    and no row exists, the row built for the log has [contributor] equal to
    the transaction's sender and [proxyUsed = true] when the event's
    from-address is in the proxy list up to letter case, and [contributor]
    equal to the event's from-address unchanged and [proxyUsed = false]
    otherwise; that row is what a successful first write stores. *)
Theorem attribution_follows_proxy_policy {E : Externals}
    (log : Log) (token : Token) (tf tt : string) (valueWei : Z)
    (tx : Transaction) (sender : string) :
  tokenAddrMap !! toLowerCase (log_address log) = Some token ->
  topicAddressAt log 1 = Some tf ->
  topicAddressAt log 2 = Some tt ->
  BigInt (log_data log) = Some valueWei ->
  getTransaction (log_transactionHash log) = TxFound tx ->
  getAddress (tx_from tx) = Some sender ->
  getAddress sender = Some sender ->
  (formatUnitsOverflows valueWei (decimals token) = true /\
   resolveLog log = Raised) \/
  (formatUnitsOverflows valueWei (decimals token) = false /\
   exists c,
     resolveLog log = Ready token valueWei c /\
     transferFrom c = tf /\
     txFrom c = sender /\
     (isKnownProxy tf -> contributor c = txFrom c /\ proxyUsed c = true) /\
     (~ isKnownProxy tf -> contributor c = tf /\ proxyUsed c = false) /\
     (forall st, upsertFails c = false -> keyOf c ∉ map keyOf (db st) ->
                 db (processLog st log).1 = db st ++ [c])).
Proof.
  intros Htok Hf Ht Hv Htx Hs Hss.
  assert (Hc : exists contrib,
             computeContributor tf sender = Some contrib /\
             (isKnownProxy tf -> contrib = sender) /\
             (~ isKnownProxy tf -> contrib = tf)).
  { unfold computeContributor.
    destruct (includes PROXY_ADDRESSES (toLowerCase tf)) eqn:Hinc.
    - exists sender. split; [exact Hss|]. split; [reflexivity|].
      intros Hno. exfalso. apply Hno, includes_proxy, Hinc.
    - exists tf. split; [reflexivity|]. split; [|reflexivity].
      intros Hp. apply includes_proxy in Hp. congruence. }
  destruct Hc as (contrib & Hc & Hyes & Hno).
  destruct (formatUnitsOverflows valueWei (decimals token)) eqn:Hfits.
  { left. split; [reflexivity|]. eapply resolveLog_overflow; eassumption. }
  right. split; [reflexivity|].
  pose proof (resolveLog_found _ _ _ _ _ _ _ _ Htok Hf Ht Hv Htx Hs Hc Hfits) as Hres.
  eexists. split; [exact Hres|].
  cbn [transferFrom txFrom contributor proxyUsed].
  split; [reflexivity|]. split; [reflexivity|]. split; [|split].
  - intros Hp. split; [apply Hyes, Hp | apply includes_proxy, Hp].
  - intros Hp. split; [apply Hno, Hp|].
    destruct (includes PROXY_ADDRESSES (toLowerCase tf)) eqn:Hinc; [|reflexivity].
    exfalso. apply Hp, includes_proxy, Hinc.
  - intros st Hok Hnew. rewrite (processLog_Ready _ _ _ _ _ Hres).
    cbn [db fst]. rewrite Hok. unfold addIfAbsent.
    now rewrite (proj2 (findUnique_None _ _) Hnew).
Qed.

Lemma attribution_follows_proxy_policy_witness :
  (exists c,
     @resolveLog Sample.world Sample.logViaProxy
       = Ready (mkToken "AXS" "0x97a9107c1793bc407d6f527b77e7fff4d812bece" 18)
               1000000000000000000 c /\
     contributor c = txFrom c /\ proxyUsed c = true) /\
  (exists c,
     @resolveLog Sample.world Sample.logDirect
       = Ready (mkToken "WETH" "0xc99a6a985ed2cac1ef41640596c5a5f9f4e19ef5" 18) 5 c /\
     contributor c = "0x0000000000000000000000000000000000000B0B" /\
     proxyUsed c = false).
Proof.
  split.
  - destruct (@attribution_follows_proxy_policy Sample.world Sample.logViaProxy
                (mkToken "AXS" "0x97a9107c1793bc407d6f527b77e7fff4d812bece" 18)
                "0x3B3ADF1422F84254B7FBB0E7CA62BD0865133FE3"
                "0x245DB945C485B68FDC429E4F7085A1761AA4D45D"
                1000000000000000000 (mkTx Sample.alice)
                "0x00000000000000000000000000000000000A11CE")
      as [[Hover _] | (_ & c & Hres & _ & _ & Hyes & _)];
      try (vm_compute; reflexivity).
    { vm_compute in Hover. discriminate Hover. }
    exists c. split; [exact Hres|]. apply Hyes.
    exists "0x3b3adf1422f84254b7fbb0e7ca62bd0865133fe3".
    split; [apply list_elem_of_here | vm_compute; reflexivity].
  - destruct (@attribution_follows_proxy_policy Sample.world Sample.logDirect
                (mkToken "WETH" "0xc99a6a985ed2cac1ef41640596c5a5f9f4e19ef5" 18)
                "0x0000000000000000000000000000000000000B0B"
                "0x000000000000000000000000000000000000DEAD"
                5 (mkTx Sample.bob)
                "0x0000000000000000000000000000000000000B0B")
      as [[Hover _] | (_ & c & Hres & _ & _ & _ & Hno & _)];
      try (vm_compute; reflexivity).
    { vm_compute in Hover. discriminate Hover. }
    exists c. split; [exact Hres|]. apply Hno.
    intros (p & Hp & Heq). apply list_elem_of_singleton in Hp. subst p.
    vm_compute in Heq. discriminate Heq.
Defined.

(** C6 (amended). The write is keyed by [(txHash, logIndex)].  When a row
    with that key exists, the upsert applies the empty update, which leaves
    the table as it is, and returns the stored row; it reports nothing that
    tells a new row from an existing one.  Every step of the indexer only
    ever appends to the table, so a stored row is never changed or replaced
    by a later operation. *)
Theorem ledger_rows_never_rewritten {E : Externals} :
  (forall (t : Table) (c row : TreasuryTransfer),
     findUnique (keyOf c) t = Some row ->
     upsert t (keyOf c) emptyUpdate c = (t, row) /\ row ∈ t /\ keyOf row = keyOf c) /\
  (forall (st : RunState) (log : Log),
     exists added, db (processLog st log).1 = db st ++ added) /\
  (forall (t : Table) (fromB toB : Z) (st : RunState),
     indexRange t fromB toB = Some st -> exists added, db st = t ++ added).
Proof.
  assert (Hstep : forall a c, exists added, addIfAbsent a c = a ++ added).
  { intros a c. unfold addIfAbsent. destruct (findUnique (keyOf c) a).
    - exists []. now rewrite app_nil_r.
    - exists [c]. reflexivity. }
  split; [|split].
  - intros t c row Hfind. unfold upsert. rewrite Hfind, updateUnique_empty.
    split; [reflexivity|]. apply findUnique_Some. exact Hfind.
  - intros st log. destruct (resolveLog log) as [| | |token v c] eqn:Hres.
    1-3: exists []; unfold processLog; rewrite Hres; simpl; now rewrite app_nil_r.
    rewrite (processLog_Ready _ _ _ _ _ Hres). cbn [db fst].
    destruct (upsertFails c); [exists []; now rewrite app_nil_r | apply Hstep].
  - intros t fromB toB st Hrun.
    destruct (indexRange_related (fun a _ => exists added, a = t ++ added)
                ltac:(intros a b c (added & ->) _;
                      destruct (Hstep (t ++ added) c) as (more & ->);
                      exists (added ++ more); now rewrite app_assoc)
                t t fromB toB ltac:(exists []; now rewrite app_nil_r))
      as (s1 & s2 & Hrun1 & _ & Hgrow & _).
    rewrite Hrun in Hrun1. injection Hrun1 as <-. exact Hgrow.
Qed.

Lemma ledger_rows_never_rewritten_witness :
  upsert [Sample.rowViaProxy] (keyOf Sample.rowViaProxy) emptyUpdate
         Sample.rowViaProxy
    = ([Sample.rowViaProxy], Sample.rowViaProxy) /\
  exists st added,
    @indexRange Sample.world [Sample.rowViaProxy] 0 799 = Some st /\
    db st = [Sample.rowViaProxy] ++ added.
Proof.
  destruct (@ledger_rows_never_rewritten Sample.world) as (Hconflict & _ & Hrun).
  split.
  - apply (Hconflict [Sample.rowViaProxy] Sample.rowViaProxy Sample.rowViaProxy).
    vm_compute. reflexivity.
  - destruct (@indexRange Sample.world [Sample.rowViaProxy] 0 799) as [st|] eqn:Hst;
      [|vm_compute in Hst; discriminate Hst].
    destruct (Hrun _ _ _ _ Hst) as (added & Hadded).
    exists st, added. split; [reflexivity | exact Hadded].
Defined.

(** C6, as stated, fails in its report: the upsert on a taken key returns
    exactly what the upsert that created the row returned, the loop body
    counts it like an insert, and so no flag computed from the write's
    result can say whether a row was inserted. *)
Lemma upsert_reports_no_insert_flag :
  upsert [] (keyOf Sample.rowViaProxy) emptyUpdate Sample.rowViaProxy
    = ([Sample.rowViaProxy], Sample.rowViaProxy) /\
  upsert [Sample.rowViaProxy] (keyOf Sample.rowViaProxy) emptyUpdate
         Sample.rowViaProxy
    = ([Sample.rowViaProxy], Sample.rowViaProxy) /\
  totalRecords
    (@processLog Sample.world (mkState [Sample.rowViaProxy] ∅ 0)
       Sample.logViaProxy).1 = 1 /\
  ~ (exists inserted : Table * TreasuryTransfer -> bool,
       forall t c,
         inserted (upsert t (keyOf c) emptyUpdate c)
         = match findUnique (keyOf c) t with Some _ => false | None => true end).
Proof.
  split; [vm_compute; reflexivity|]. split; [vm_compute; reflexivity|].
  split; [vm_compute; reflexivity|].
  intros (inserted & Hflag).
  pose proof (Hflag [] Sample.rowViaProxy) as Hnew.
  pose proof (Hflag [Sample.rowViaProxy] Sample.rowViaProxy) as Hold.
  vm_compute in Hnew, Hold. congruence.
Qed.

(** C8. When the transaction lookup of a decoded event of a tracked token
    resolves to null, the loop body [continue]s: the table, the per-token
    totals and the record count are all unchanged. *)
Theorem missing_transaction_skips_event {E : Externals}
    (st : RunState) (log : Log) (token : Token) (tf tt : string) (valueWei : Z) :
  tokenAddrMap !! toLowerCase (log_address log) = Some token ->
  topicAddressAt log 1 = Some tf ->
  topicAddressAt log 2 = Some tt ->
  BigInt (log_data log) = Some valueWei ->
  getTransaction (log_transactionHash log) = TxNull ->
  resolveLog log = TxMissing /\ processLog st log = (st, Completed).
Proof.
  intros Htok Hf Ht Hv Htx.
  assert (Hres : resolveLog log = TxMissing).
  { unfold resolveLog. rewrite Htok, Hf, Ht, Hv, Htx. reflexivity. }
  split; [exact Hres|]. unfold processLog. rewrite Hres. reflexivity.
Qed.

Lemma missing_transaction_skips_event_witness :
  @processLog Sample.world (mkState [Sample.rowDirect] {[ "WETH" := 5 ]} 1)
     Sample.logOrphan
  = (mkState [Sample.rowDirect] {[ "WETH" := 5 ]} 1, Completed).
Proof.
  apply (@missing_transaction_skips_event Sample.world _ Sample.logOrphan
           (mkToken "AXS" "0x97a9107c1793bc407d6f527b77e7fff4d812bece" 18)
           "0x00000000000000000000000000000000000A11CE"
           "0x245DB945C485B68FDC429E4F7085A1761AA4D45D" 9);
    vm_compute; reflexivity.
Defined.

(** C9. A log whose contract address matches no tracked token, letter case
    aside, is dropped before anything is decoded: no row is built, the
    table, the totals and the record count are unchanged, and the loop body
    ends normally. *)
Theorem untracked_log_dropped {E : Externals} (st : RunState) (log : Log) :
  ~ isTracked (log_address log) ->
  resolveLog log = Untracked /\ processLog st log = (st, Completed).
Proof.
  intros Hno. apply tokenAddrMap_untracked in Hno.
  assert (Hres : resolveLog log = Untracked).
  { unfold resolveLog. rewrite Hno. reflexivity. }
  split; [exact Hres|]. unfold processLog. rewrite Hres. reflexivity.
Qed.

Lemma untracked_log_dropped_witness :
  @processLog Sample.world (mkState [Sample.rowDirect] {[ "WETH" := 5 ]} 1)
     Sample.logUntracked
  = (mkState [Sample.rowDirect] {[ "WETH" := 5 ]} 1, Completed).
Proof.
  apply (@untracked_log_dropped Sample.world).
  intros (t & Ht & Heq). unfold TOKENS in Ht.
  apply elem_of_cons in Ht as [->|Ht]; [vm_compute in Heq; discriminate Heq|].
  apply list_elem_of_singleton in Ht as ->. vm_compute in Heq. discriminate Heq.
Defined.

(** ** Where the rows of a run come from

    A property of the table that is kept whenever the row built for a log
    that the provider returned for a window of the run is added, is kept by
    the run. *)

Lemma promiseAll_Some {A} (ps : list (option A)) :
  forall results, promiseAll ps = Some results ->
    forall x, x ∈ results -> Some x ∈ ps.
Proof.
  induction ps as [|p ps IH]; intros results Hall x Hx; simpl in Hall.
  - injection Hall as <-. apply elem_of_nil in Hx. contradiction.
  - destruct p as [a|]; [|discriminate].
    destruct (promiseAll ps) as [rest|]; [|discriminate].
    injection Hall as <-. apply elem_of_cons in Hx as [->|Hx].
    + apply list_elem_of_here.
    + apply list_elem_of_further. eapply IH; [reflexivity|exact Hx].
Qed.

Section Provenance.

Context {E : Externals}.
Variable Q : Log -> Prop.
Variable Inv : Table -> Prop.
Hypothesis Inv_add :
  forall a log token valueWei c,
    Inv a -> Q log -> resolveLog log = Ready token valueWei c ->
    upsertFails c = false -> Inv (addIfAbsent a c).

Lemma processLog_prov st log :
  Q log -> Inv (db st) -> Inv (db (processLog st log).1).
Proof.
  intros HQ Hinv. destruct (resolveLog log) as [| | |token v c] eqn:Hres.
  1-3: unfold processLog; rewrite Hres; exact Hinv.
  rewrite (processLog_Ready _ _ _ _ _ Hres). cbn [fst db].
  destruct (upsertFails c) eqn:Hf; [exact Hinv|].
  eapply Inv_add; eassumption.
Qed.

Lemma processLogs_prov logs :
  forall st, (forall l, l ∈ logs -> Q l) -> Inv (db st) ->
             Inv (db (processLogs st logs).1).
Proof.
  induction logs as [|log logs IH]; intros st HQ Hinv; simpl; [exact Hinv|].
  pose proof (processLog_prov st log (HQ log (list_elem_of_here _ _)) Hinv) as Hstep.
  destruct (processLog st log) as [st' []]; simpl in *; [|exact Hstep].
  apply IH; [|exact Hstep]. intros l Hl. apply HQ, list_elem_of_further, Hl.
Qed.

Lemma processResults_prov results :
  forall st, (forall logs l, logs ∈ results -> l ∈ logs -> Q l) -> Inv (db st) ->
             Inv (db (processResults st results).1).
Proof.
  induction results as [|logs results IH]; intros st HQ Hinv; simpl; [exact Hinv|].
  pose proof (processLogs_prov logs st
                (fun l Hl => HQ logs l (list_elem_of_here _ _) Hl) Hinv) as Hstep.
  destruct (processLogs st logs) as [st' []]; simpl in *; [|exact Hstep].
  apply IH; [|exact Hstep].
  intros logs' l Hlogs Hl. eapply HQ; [apply list_elem_of_further|]; eassumption.
Qed.

Lemma processBatch_prov st batch :
  (forall r logs l, r ∈ batch -> getLogs (filterFor r) = Some logs ->
                    l ∈ logs -> Q l) ->
  Inv (db st) -> Inv (db (processBatch st batch)).
Proof.
  intros HQ Hinv. unfold processBatch.
  destruct (promiseAll _) as [results|] eqn:Hall; [|exact Hinv].
  apply processResults_prov; [|exact Hinv].
  intros logs l Hlogs Hl.
  pose proof (promiseAll_Some _ _ Hall logs Hlogs) as Hin.
  apply list_elem_of_In, in_map_iff in Hin as (r & Hr & Hrin).
  eapply HQ; [apply list_elem_of_In, Hrin | exact Hr | exact Hl].
Qed.

Lemma runBatches_prov batches :
  forall st,
    (forall batch r logs l, batch ∈ batches -> r ∈ batch ->
                            getLogs (filterFor r) = Some logs -> l ∈ logs -> Q l) ->
    Inv (db st) -> Inv (db (runBatches st batches)).
Proof.
  unfold runBatches.
  induction batches as [|batch batches IH]; intros st HQ Hinv; simpl; [exact Hinv|].
  apply IH.
  - intros b r logs l Hb. apply HQ, list_elem_of_further, Hb.
  - apply processBatch_prov; [|exact Hinv].
    intros r logs l. apply HQ, list_elem_of_here.
Qed.

End Provenance.

Lemma indexRange_prov {E : Externals} (fromB toB : Z) (Inv : Table -> Prop) :
  (forall a log token valueWei c,
     Inv a -> fetchedBy fromB toB log ->
     resolveLog log = Ready token valueWei c ->
     upsertFails c = false -> Inv (addIfAbsent a c)) ->
  forall t st, indexRange t fromB toB = Some st -> Inv t -> Inv (db st).
Proof.
  intros Hadd t st Hrun Hinv. unfold indexRange in Hrun.
  destruct (buildRangesForward fromB toB BLOCK_SPAN) as [ranges|] eqn:Hranges;
    [|discriminate].
  destruct (chunkArray ranges MAX_CONCURRENCY) as [batches|] eqn:Hchunk;
    [|discriminate].
  injection Hrun as <-.
  destruct (chunkArray_returns ranges MAX_CONCURRENCY
              ltac:(unfold MAX_CONCURRENCY; lia)) as (batches' & Hchunk' & Hcat).
  assert (batches' = batches) as -> by congruence.
  apply (runBatches_prov (fetchedBy fromB toB) Inv Hadd); [|exact Hinv].
  intros batch r logs l Hb Hr Hlogs Hl.
  exists ranges, r, logs. split; [exact Hranges|]. split; [|split; assumption].
  rewrite <- Hcat. apply list_elem_of_In, in_concat.
  exists batch. split; apply list_elem_of_In; assumption.
Qed.

(** C10. Every row that a run adds to the table was built by the loop body
    from a log that the provider returned for a window of that run, and it
    carries, in [treasury], the checksummed address read from the last 40
    hexadecimal digits (20 bytes) of [topics[2]] of that log, the same value
    as [transferTo]; the configured [TREASURY_ADDRESS] is not consulted,
    and a log whose recipient topic names another address is stored with
    that address. *)
Theorem stored_treasury_is_decoded_recipient :
  (forall (E : Externals) (t : Table) (fromB toB : Z) (st : RunState)
          (r : TreasuryTransfer),
     indexRange t fromB toB = Some st -> r ∈ db st ->
     r ∈ t \/
     exists log token valueWei topic pre body,
       fetchedBy fromB toB log /\
       resolveLog log = Ready token valueWei r /\
       keyOf r = (log_transactionHash log, log_index log) /\
       log_topics log !! 2%nat = Some topic /\
       topic = pre +:+ body /\
       (String.length body = 40%nat \/
        (pre = EmptyString /\ (String.length topic < 40)%nat)) /\
       getAddress ("0x" +:+ body) = Some (treasury r) /\
       getAddress ("0x" +:+ sliceLast 40 topic) = Some (treasury r) /\
       treasury r = transferTo r) /\
  (exists (E : Externals) (st : RunState) (r : TreasuryTransfer),
     indexRange [] 0 799 = Some st /\ r ∈ db st /\
     toLowerCase (treasury r) <> TREASURY_ADDRESS).
Proof.
  split.
  - intros E t fromB toB st r Hrun Hin.
    apply (indexRange_prov fromB toB
             (fun a => forall r, r ∈ a -> r ∈ t \/
                exists log token valueWei topic pre body,
                  fetchedBy fromB toB log /\
                  resolveLog log = Ready token valueWei r /\
                  keyOf r = (log_transactionHash log, log_index log) /\
                  log_topics log !! 2%nat = Some topic /\
                  topic = pre +:+ body /\
                  (String.length body = 40%nat \/
                   (pre = EmptyString /\ (String.length topic < 40)%nat)) /\
                  getAddress ("0x" +:+ body) = Some (treasury r) /\
                  getAddress ("0x" +:+ sliceLast 40 topic) = Some (treasury r) /\
                  treasury r = transferTo r))
      with (t := t) (st := st); [|exact Hrun| |exact Hin].
    + intros a log token v c Ha Hfetched Hres _ r' Hr'.
      unfold addIfAbsent in Hr'. destruct (findUnique (keyOf c) a); [auto|].
      apply elem_of_app in Hr' as [Hr'|Hr']; [auto|].
      apply list_elem_of_singleton in Hr' as ->. right.
      pose proof (resolveLog_key _ _ _ _ Hres) as Hkey.
      pose proof (resolveLog_Ready _ _ _ _ Hres)
        as (tf & tt & tx & sender & contrib & _ & _ & Htt & _ & _ & _ & _ & Hrow).
      unfold topicAddressAt in Htt.
      destruct (log_topics log !! 2%nat) as [topic|] eqn:Htopic; [|discriminate].
      unfold topicToAddress in Htt.
      destruct (sliceLast_split 40 topic) as (pre & Hsplit & Hlen).
      exists log, token, v, topic, pre, (sliceLast 40 topic).
      assert (Htreasury : treasury c = tt) by (rewrite Hrow; reflexivity).
      assert (Hto : transferTo c = tt) by (rewrite Hrow; reflexivity).
      rewrite Htreasury, Hto.
      repeat split; assumption.
    + intros r' Hr'. left. exact Hr'.
  - exists Sample.world, (mkState [Sample.rowViaProxy; Sample.rowDirect]
                            {[ "AXS" := 1000000000000000000; "WETH" := 5 ]} 2),
           Sample.rowDirect.
    split; [vm_compute; reflexivity|]. split.
    + apply list_elem_of_further, list_elem_of_here.
    + vm_compute. discriminate.
Qed.

Lemma stored_treasury_is_decoded_recipient_witness :
  exists log token valueWei topic pre body,
    @fetchedBy Sample.world 0 799 log /\
    @resolveLog Sample.world log = Ready token valueWei Sample.rowDirect /\
    log_topics log !! 2%nat = Some topic /\
    topic = pre +:+ body /\
    (String.length body = 40%nat \/
     (pre = EmptyString /\ (String.length topic < 40)%nat)) /\
    @getAddress Sample.world ("0x" +:+ body) = Some (treasury Sample.rowDirect).
Proof.
  destruct (proj1 stored_treasury_is_decoded_recipient Sample.world [] 0 799
              (mkState [Sample.rowViaProxy; Sample.rowDirect]
                 {[ "AXS" := 1000000000000000000; "WETH" := 5 ]} 2)
              Sample.rowDirect)
    as [Hold | (log & token & v & topic & pre & body & Hfetched & Hres & _ &
                Htopic & Hsplit & Hlen & Haddr & _)].
  - vm_compute. reflexivity.
  - apply list_elem_of_further, list_elem_of_here.
  - apply elem_of_nil in Hold. contradiction.
  - exists log, token, v, topic, pre, body. repeat split; assumption.
Defined.

(** * Further properties of the planner and the batching helper *)

Lemma buildRanges_loop_stuck (span toB : Z) (fuel : nat) :
  span <= 0 ->
  forall start, start <= toB -> buildRanges_loop fuel start toB span = None.
Proof.
  intros Hspan. induction fuel as [|fuel IH]; intros start Hle; cbn [buildRanges_loop];
    destruct (Z.leb_spec start toB); try lia; [reflexivity|].
  rewrite IH by lia. reflexivity.
Qed.

(** X1. With a span of zero or less and [from <= to] the loop of the planner
    never reaches its exit: whatever the number of iterations allowed, it is
    still running, so [buildRangesForward] returns nothing. *)
Theorem buildRangesForward_nonpositive_span (fromB toB span : Z) :
  fromB <= toB -> span <= 0 ->
  (forall fuel, buildRanges_loop fuel fromB toB span = None) /\
  buildRangesForward fromB toB span = None.
Proof.
  intros Hle Hspan. split.
  - intros fuel. apply buildRanges_loop_stuck; assumption.
  - apply buildRanges_loop_stuck; assumption.
Qed.

Lemma buildRangesForward_nonpositive_span_witness :
  buildRangesForward 5 12 0 = None /\ buildRanges_loop 1000 5 12 (-3) = None.
Proof.
  split.
  - apply (buildRangesForward_nonpositive_span 5 12 0); lia.
  - apply (buildRangesForward_nonpositive_span 5 12 (-3)); lia.
Defined.

Lemma chunk_loop_shape {T} (size : nat) (fuel : nat) :
  (1 <= size)%nat ->
  forall rest : list T, (length rest <= fuel)%nat ->
    exists chunks,
      chunk_loop fuel rest size = Some chunks /\
      (forall i c, chunks !! i = Some c ->
                   c = take size (drop (i * size) rest) /\ c <> []) /\
      Z.of_nat (length chunks) = ceil_div (Z.of_nat (length rest)) (Z.of_nat size).
Proof.
  intros Hsize. induction fuel as [|fuel IH]; intros rest Hlen.
  - destruct rest; [|simpl in Hlen; lia]. exists [].
    split; [reflexivity|]. split; [intros i c Hi; destruct i; discriminate Hi|].
    unfold ceil_div. simpl length. symmetry. apply Z.div_small. lia.
  - destruct rest as [|x rest].
    { exists [].
      split; [reflexivity|]. split; [intros i c Hi; destruct i; discriminate Hi|].
      unfold ceil_div. simpl length. symmetry. apply Z.div_small. lia. }
    cbn [chunk_loop].
    destruct (IH (drop size (x :: rest))) as (chunks & -> & Hshape & Hcount).
    { rewrite length_drop. simpl in *. lia. }
    eexists. split; [reflexivity|]. split.
    + intros i c Hi. destruct i as [|i].
      * injection Hi as <-. split; [reflexivity|].
        destruct size; [lia|]. discriminate.
      * simpl in Hi. destruct (Hshape i c Hi) as [-> Hne].
        split; [|exact Hne]. rewrite drop_drop. do 2 f_equal; lia.
    + rewrite length_cons, Nat2Z.inj_succ, Hcount, length_drop.
      unfold ceil_div. set (n := length (x :: rest)).
      assert (Hn : (1 <= n)%nat) by (subst n; simpl; lia).
      destruct (le_lt_dec n size) as [Hsmall|Hbig].
      * replace (n - size)%nat with O by lia.
        rewrite (Z.div_small (Z.of_nat 0 + _ - 1)) by lia.
        replace (Z.of_nat n + Z.of_nat size - 1)
          with (Z.of_nat n - 1 + 1 * Z.of_nat size) by lia.
        rewrite Z.div_add by lia. rewrite Z.div_small by lia. reflexivity.
      * rewrite Nat2Z.inj_sub by lia.
        replace (Z.of_nat n + Z.of_nat size - 1)
          with (Z.of_nat n - Z.of_nat size + Z.of_nat size - 1 + 1 * Z.of_nat size)
          by lia.
        rewrite Z.div_add by lia. lia.
Qed.

Lemma chunkArray_shape {T} (arr : list T) (size : nat) :
  (1 <= size)%nat ->
  exists chunks,
    chunkArray arr size = Some chunks /\
    concat chunks = arr /\
    (forall i c, chunks !! i = Some c ->
                 c = take size (drop (i * size) arr) /\
                 (1 <= length c <= size)%nat) /\
    Z.of_nat (length chunks) = ceil_div (Z.of_nat (length arr)) (Z.of_nat size).
Proof.
  intros Hsize. unfold chunkArray.
  destruct (chunk_loop_shape size (length arr) Hsize arr (le_n _))
    as (chunks & Hrun & Hshape & Hcount).
  destruct (chunk_loop_returns size (length arr) Hsize arr (le_n _))
    as (chunks' & Hrun' & Hcat).
  assert (chunks' = chunks) as -> by congruence.
  exists chunks. split; [exact Hrun|]. split; [exact Hcat|]. split; [|exact Hcount].
  intros i c Hi. destruct (Hshape i c Hi) as [Hc Hne]. split; [exact Hc|].
  split.
  - destruct c; [contradiction|simpl; lia].
  - rewrite Hc, length_take. lia.
Qed.


(** X2. For a chunk size of at least one, [chunkArray] returns; chunk [i]
    is exactly [arr.slice(i * size, i * size + size)] and is never empty,
    the chunks put end to end give the array back, and there are
    ceil(length / size) of them. *)
Theorem chunkArray_slices {T} (arr : list T) (size : nat) :
  (1 <= size)%nat ->
  exists chunks,
    chunkArray arr size = Some chunks /\
    concat chunks = arr /\
    (forall i c, chunks !! i = Some c ->
                 c = take size (drop (i * size) arr) /\
                 (1 <= length c <= size)%nat) /\
    Z.of_nat (length chunks) = ceil_div (Z.of_nat (length arr)) (Z.of_nat size).
Proof. apply chunkArray_shape. Qed.

Lemma chunkArray_slices_witness :
  exists chunks,
    chunkArray [1; 2; 3; 4; 5] 2 = Some chunks /\
    chunks = [[1; 2]; [3; 4]; [5]] /\
    Z.of_nat (length chunks) = ceil_div 5 2.
Proof.
  destruct (chunkArray_slices [1; 2; 3; 4; 5] 2 ltac:(lia))
    as (chunks & Hrun & _ & _ & Hcount).
  exists chunks. split; [exact Hrun|]. split; [|exact Hcount].
  vm_compute in Hrun. congruence.
Defined.

(** X3. An empty array is chunked to the empty list whatever the size; with
    size zero and a non-empty array the loop index never moves, so the loop
    is still running after any number of iterations and [chunkArray]
    returns nothing. *)
Theorem chunkArray_degenerate {T} (x : T) (rest : list T) :
  (forall size, chunkArray (@nil T) size = Some []) /\
  (forall fuel, chunk_loop fuel (x :: rest) 0 = None) /\
  chunkArray (x :: rest) 0 = None.
Proof.
  assert (Hstuck : forall fuel, chunk_loop fuel (x :: rest) 0 = None).
  { induction fuel as [|fuel IH]; [reflexivity|].
    cbn [chunk_loop]. rewrite drop_0, IH. reflexivity. }
  split; [reflexivity|]. split; [exact Hstuck | apply Hstuck].
Qed.

(** X4. With [fromBlock > toBlock] a run has no window and no batch: it
    returns at once with empty totals and a record count of zero, and the
    table is the one it was given. *)
Theorem indexRange_reversed_bounds {E : Externals} (t : Table) (fromB toB : Z) :
  toB < fromB -> indexRange t fromB toB = Some (mkState t ∅ 0).
Proof.
  intros Hlt. unfold indexRange, buildRangesForward.
  rewrite buildRanges_loop_exit by exact Hlt. reflexivity.
Qed.

Lemma indexRange_reversed_bounds_witness :
  @indexRange Sample.world [Sample.rowDirect] 800 0
  = Some (mkState [Sample.rowDirect] ∅ 0).
Proof. apply (@indexRange_reversed_bounds Sample.world). lia. Defined.

(** * Further properties of the decoding *)

(** X5. [topicToAddress] looks at the last 40 characters of the topic only:
    whatever precedes them (the [0x] and the 24 padding digits of a
    well-formed topic, or anything else) has no influence on the result, and
    a topic of 40 characters or fewer is handed to [getAddress] whole. *)
Theorem topicToAddress_reads_last_40 {E : Externals} :
  (forall pre body : string,
     String.length body = 40%nat ->
     topicToAddress (pre +:+ body) = getAddress ("0x" +:+ body)) /\
  (forall topic : string,
     (String.length topic <= 40)%nat ->
     topicToAddress topic = getAddress ("0x" +:+ topic)).
Proof.
  split.
  - intros pre body Hlen. unfold topicToAddress.
    now rewrite (sliceLast_suffix 40 pre body Hlen).
  - intros topic Hlen. unfold topicToAddress.
    now rewrite (sliceLast_short 40 topic Hlen).
Qed.

Lemma topicToAddress_reads_last_40_witness :
  @topicToAddress Sample.world
     ("0xffffffffffffffffffffffff" +:+ "0000000000000000000000000000000000000b0b")
  = Some "0x0000000000000000000000000000000000000B0B" /\
  @topicToAddress Sample.world "b0b" = None.
Proof.
  split.
  - rewrite (proj1 (@topicToAddress_reads_last_40 Sample.world)
               "0xffffffffffffffffffffffff"
               "0000000000000000000000000000000000000b0b" eq_refl).
    vm_compute. reflexivity.
  - rewrite (proj2 (@topicToAddress_reads_last_40 Sample.world) "b0b"
               ltac:(simpl; lia)).
    vm_compute. reflexivity.
Defined.

(** X6. When the third topic of a log is the one the query asked for (the
    treasury address padded to 32 bytes), the row built for that log has in
    [treasury] and in [transferTo] the checksummed form of
    [TREASURY_ADDRESS]. *)
Theorem honoured_filter_stores_treasury {E : Externals}
    (log : Log) (token : Token) (valueWei : Z) (c : TreasuryTransfer) :
  resolveLog log = Ready token valueWei c ->
  topicsFilter !! 2%nat = Some (log_topics log !! 2%nat) ->
  getAddress TREASURY_ADDRESS = Some (treasury c) /\
  transferTo c = treasury c.
Proof.
  intros Hres Htopic.
  pose proof (resolveLog_Ready _ _ _ _ Hres)
    as (tf & tt & tx & sender & contrib & _ & _ & Htt & _ & _ & _ & _ & ->).
  cbn [treasury transferTo]. split; [|reflexivity].
  unfold topicsFilter in Htopic. cbn in Htopic. injection Htopic as Htopic.
  unfold topicAddressAt in Htt. rewrite <- Htopic in Htt.
  rewrite <- Htt. unfold topicToAddress. f_equal.
Qed.

Lemma honoured_filter_stores_treasury_witness :
  @getAddress Sample.world TREASURY_ADDRESS = Some (treasury Sample.rowViaProxy).
Proof.
  apply (@honoured_filter_stores_treasury Sample.world Sample.logViaProxy
           (mkToken "AXS" "0x97a9107c1793bc407d6f527b77e7fff4d812bece" 18)
           1000000000000000000 Sample.rowViaProxy);
    vm_compute; reflexivity.
Defined.

Lemma token_map_lookup_Some (tokens : list Token) :
  forall (m : gmap string Token) k t,
    foldl (fun m t => <[toLowerCase (address t) := t]> m) m tokens !! k = Some t ->
    m !! k = Some t \/ (t ∈ tokens /\ toLowerCase (address t) = k).
Proof.
  induction tokens as [|t0 tokens IH]; intros m k t Hk; simpl in Hk; [left; exact Hk|].
  apply IH in Hk as [Hk|[Hin Heq]].
  - rewrite lookup_insert in Hk. case_decide as Hd.
    + injection Hk as <-. right. split; [apply list_elem_of_here|exact Hd].
    + left. exact Hk.
  - right. split; [apply list_elem_of_further, Hin|exact Heq].
Qed.

Lemma tokenAddrMap_Some k t :
  tokenAddrMap !! k = Some t -> t ∈ TOKENS /\ toLowerCase (address t) = k.
Proof.
  intros Hk. apply token_map_lookup_Some in Hk as [Hk|Hk]; [|exact Hk].
  rewrite lookup_empty in Hk. discriminate Hk.
Qed.

(** X7. The token map is keyed without regard to letter case: looking up
    the lower-cased form of an address finds a token exactly when that
    token is in [TOKENS] and its address equals the given one up to case. *)
Theorem tokenAddrMap_lookup_any_case (a : string) (t : Token) :
  tokenAddrMap !! toLowerCase a = Some t <->
  t ∈ TOKENS /\ toLowerCase (address t) = toLowerCase a.
Proof.
  split; [apply tokenAddrMap_Some|].
  intros [Hin Heq]. unfold tokenAddrMap, TOKENS in *. cbn [foldl].
  apply elem_of_cons in Hin as [->|Hin].
  - rewrite <- Heq. rewrite lookup_insert_ne by (vm_compute; discriminate).
    apply lookup_insert_eq.
  - apply list_elem_of_singleton in Hin as ->. rewrite <- Heq.
    apply lookup_insert_eq.
Qed.

Lemma tokenAddrMap_lookup_any_case_witness :
  tokenAddrMap !! toLowerCase "0xC99A6A985ED2CAC1EF41640596C5A5F9F4E19EF5"
  = Some (mkToken "WETH" "0xc99a6a985ed2cac1ef41640596c5a5f9f4e19ef5" 18).
Proof.
  apply (proj2 (tokenAddrMap_lookup_any_case
                  "0xC99A6A985ED2CAC1EF41640596C5A5F9F4E19EF5"
                  (mkToken "WETH" "0xc99a6a985ed2cac1ef41640596c5a5f9f4e19ef5" 18))).
  split; [apply list_elem_of_further, list_elem_of_here | vm_compute; reflexivity].
Defined.

(** * Further properties of the run *)

Section Exceptions.

Context {E : Externals}.


Lemma processLog_Raised st log :
  resolveLog log = Raised -> processLog st log = (st, Threw).
Proof. intros Hres. unfold processLog. now rewrite Hres. Qed.

Lemma processLogs_app l1 l2 :
  forall st,
    processLogs st (l1 ++ l2) =
    match processLogs st l1 with
    | (st', Completed) => processLogs st' l2
    | (st', Threw) => (st', Threw)
    end.
Proof.
  induction l1 as [|log l1 IH]; intros st; simpl; [reflexivity|].
  destruct (processLog st log) as [st' []]; [apply IH|reflexivity].
Qed.

Lemma processResults_app r1 r2 :
  forall st,
    processResults st (r1 ++ r2) =
    match processResults st r1 with
    | (st', Completed) => processResults st' r2
    | (st', Threw) => (st', Threw)
    end.
Proof.
  induction r1 as [|logs r1 IH]; intros st; simpl; [reflexivity|].
  destruct (processLogs st logs) as [st' []]; [apply IH|reflexivity].
Qed.

End Exceptions.

(** X8. A log of a tracked token that has fewer than three topics, or whose
    data [BigInt] rejects, or whose transaction lookup is rejected, makes
    the loop body throw before anything is accumulated or written: the run
    state is unchanged and the exception leaves the loop. *)
Theorem malformed_log_raises {E : Externals}
    (st : RunState) (log : Log) (token : Token) :
  tokenAddrMap !! toLowerCase (log_address log) = Some token ->
  (length (log_topics log) < 3)%nat \/
  BigInt (log_data log) = None \/
  getTransaction (log_transactionHash log) = TxRejected ->
  resolveLog log = Raised /\ processLog st log = (st, Threw).
Proof.
  intros Htok Hbad.
  assert (Hres : resolveLog log = Raised).
  { unfold resolveLog. rewrite Htok.
    destruct (topicAddressAt log 1) as [tf|]; [|reflexivity].
    destruct (topicAddressAt log 2) as [tt|] eqn:Htt; [|reflexivity].
    destruct (BigInt (log_data log)) as [v|] eqn:Hv; [|reflexivity].
    destruct Hbad as [Hshort|[Hdata|Htx]].
    - unfold topicAddressAt in Htt.
      rewrite (proj2 (lookup_ge_None (log_topics log) 2)) in Htt by lia.
      discriminate Htt.
    - discriminate Hdata.
    - rewrite Htx. reflexivity. }
  split; [exact Hres | apply processLog_Raised, Hres].
Qed.

Lemma malformed_log_raises_witness :
  @processLog SampleFaults.world
     (mkState [Sample.rowDirect] {[ "WETH" := 5 ]} 1) SampleFaults.logTruncated
  = (mkState [Sample.rowDirect] {[ "WETH" := 5 ]} 1, Threw).
Proof.
  apply (@malformed_log_raises SampleFaults.world _ SampleFaults.logTruncated
           (mkToken "AXS" "0x97a9107c1793bc407d6f527b77e7fff4d812bece" 18)).
  - vm_compute. reflexivity.
  - left. simpl. lia.
Defined.



(** X10. When a log throws in the middle of a batch, the batch stops there:
    the rows and totals of the logs processed before it stay, and neither
    the later logs of that window nor the later windows of the batch are
    processed. *)
Theorem raising_log_abandons_batch {E : Externals}
    (st : RunState) (batch : list BlockRange)
    (done later : list (list Log)) (l1 l2 : list Log) (bad : Log) :
  promiseAll (map (fun r => getLogs (filterFor r)) batch)
    = Some (done ++ (l1 ++ bad :: l2) :: later) ->
  (processResults st done).2 = Completed ->
  (processLogs (processResults st done).1 l1).2 = Completed ->
  resolveLog bad = Raised ->
  processBatch st batch = (processLogs (processResults st done).1 l1).1.
Proof.
  intros Hfetch Hdone Hl1 Hbad. unfold processBatch. rewrite Hfetch.
  rewrite processResults_app.
  destruct (processResults st done) as [st1 c1]. simpl in *. subst c1.
  rewrite processLogs_app.
  destruct (processLogs st1 l1) as [st2 c2]. simpl in *. subst c2.
  simpl. rewrite (processLog_Raised _ _ Hbad). reflexivity.
Qed.

Lemma raising_log_abandons_batch_witness :
  @processBatch SampleFaults.world Sample.emptyState
     [mkRange 0 399; mkRange 400 799]
  = mkState [Sample.rowViaProxy] {[ "AXS" := 1000000000000000000 ]} 1.
Proof.
  rewrite (@raising_log_abandons_batch SampleFaults.world Sample.emptyState
             [mkRange 0 399; mkRange 400 799] [] [[Sample.logDirect]]
             [Sample.logViaProxy] [Sample.logLate] SampleFaults.logTruncated);
    vm_compute; reflexivity.
Defined.

(** ** Invariants of the run state

    A property of the run state that every completed loop body keeps is
    kept by a whole run. *)
Section RunInvariant.

Context {E : Externals}.
Variable Inv : RunState -> Prop.
Hypothesis Inv_step :
  forall st log token valueWei c,
    Inv st -> resolveLog log = Ready token valueWei c ->
    Inv (processLog st log).1.

Lemma processLog_inv st log : Inv st -> Inv (processLog st log).1.
Proof.
  intros Hinv. destruct (resolveLog log) as [| | |token v c] eqn:Hres.
  1-3: unfold processLog; rewrite Hres; exact Hinv.
  eapply Inv_step; eassumption.
Qed.

Lemma processLogs_inv logs : forall st, Inv st -> Inv (processLogs st logs).1.
Proof.
  induction logs as [|log logs IH]; intros st Hinv; simpl; [exact Hinv|].
  pose proof (processLog_inv st log Hinv) as Hstep.
  destruct (processLog st log) as [st' []]; simpl in *; [apply IH|]; exact Hstep.
Qed.

Lemma processResults_inv results :
  forall st, Inv st -> Inv (processResults st results).1.
Proof.
  induction results as [|logs results IH]; intros st Hinv; simpl; [exact Hinv|].
  pose proof (processLogs_inv logs st Hinv) as Hstep.
  destruct (processLogs st logs) as [st' []]; simpl in *; [apply IH|]; exact Hstep.
Qed.

Lemma runBatches_inv batches : forall st, Inv st -> Inv (runBatches st batches).
Proof.
  unfold runBatches.
  induction batches as [|batch batches IH]; intros st Hinv; simpl; [exact Hinv|].
  apply IH. unfold processBatch.
  destruct (promiseAll _); [apply processResults_inv|]; exact Hinv.
Qed.

Lemma indexRange_inv t fromB toB st :
  Inv (mkState t ∅ 0) -> indexRange t fromB toB = Some st -> Inv st.
Proof.
  intros Hinv. unfold indexRange.
  destruct (buildRangesForward _ _ _); [|discriminate].
  destruct (chunkArray _ _); [|discriminate].
  intros [= <-]. apply runBatches_inv, Hinv.
Qed.

End RunInvariant.

Lemma findUnique_snoc_new k t c :
  findUnique k t = None -> keyOf c = k -> findUnique k (t ++ [c]) = Some c.
Proof.
  unfold findUnique. intros Hnone Hk.
  induction t as [|r t IH]; simpl in *.
  - now rewrite (proj2 (hasKey_keyOf k c) Hk).
  - destruct (hasKey k r); [discriminate|]. apply IH, Hnone.
Qed.

Lemma run_totals_tracked {E : Externals}
    (t : Table) (fromB toB : Z) (st : RunState) :
  indexRange t fromB toB = Some st ->
  forall sym total,
    totalWeiByToken st !! sym = Some total ->
    exists token, token ∈ TOKENS /\ symbol token = sym.
Proof.
  intros Hrun.
  apply (indexRange_inv
           (fun s => forall sym total, totalWeiByToken s !! sym = Some total ->
                       exists token, token ∈ TOKENS /\ symbol token = sym))
    with (t := t) (fromB := fromB) (toB := toB); [| |exact Hrun].
  - intros s log token v c Hinv Hres sym total.
    rewrite (processLog_Ready _ _ _ _ _ Hres). cbn [fst totalWeiByToken].
    rewrite lookup_insert. case_decide as Hd; [|apply Hinv].
    intros _. exists token. split; [|exact Hd].
    apply resolveLog_Ready in Hres
      as (tf & tt & tx & sender & contrib & Htok & _).
    apply tokenAddrMap_Some in Htok as [Hin _]. exact Hin.
  - intros sym total. cbn [totalWeiByToken]. rewrite lookup_empty. discriminate.
Qed.

(** X11. The per-token totals returned by a run only have entries for the
    symbols of the tokens in [TOKENS]. *)
Theorem totals_only_tracked_symbols {E : Externals}
    (t : Table) (fromB toB : Z) (st : RunState) (sym : string) (total : Z) :
  indexRange t fromB toB = Some st ->
  totalWeiByToken st !! sym = Some total ->
  exists token, token ∈ TOKENS /\ symbol token = sym.
Proof. intros Hrun. apply (run_totals_tracked t fromB toB st Hrun). Qed.

Lemma totals_only_tracked_symbols_witness :
  exists token, token ∈ TOKENS /\ symbol token = "WETH".
Proof.
  apply (@totals_only_tracked_symbols Sample.world [] 0 799
           (mkState [Sample.rowViaProxy; Sample.rowDirect]
              {[ "AXS" := 1000000000000000000; "WETH" := 5 ]} 2) "WETH" 5);
    vm_compute; reflexivity.
Defined.

(** X12. The record count of a run is never negative and bounds the number
    of rows the run added to the table. *)
Theorem record_count_bounds_new_rows {E : Externals}
    (t : Table) (fromB toB : Z) (st : RunState) :
  indexRange t fromB toB = Some st ->
  0 <= totalRecords st /\
  Z.of_nat (length t) <= Z.of_nat (length (db st))
    <= Z.of_nat (length t) + totalRecords st.
Proof.
  intros Hrun.
  apply (indexRange_inv
           (fun s => 0 <= totalRecords s /\
                     Z.of_nat (length t) <= Z.of_nat (length (db s))
                       <= Z.of_nat (length t) + totalRecords s))
    with (t := t) (fromB := fromB) (toB := toB); [| |exact Hrun].
  - intros s log token v c Hinv Hres.
    rewrite (processLog_Ready _ _ _ _ _ Hres). cbn [fst db totalRecords].
    destruct (upsertFails c); [exact Hinv|].
    unfold addIfAbsent. destruct (findUnique (keyOf c) (db s)); [lia|].
    rewrite length_app. simpl. lia.
  - simpl. lia.
Qed.

Lemma record_count_bounds_new_rows_witness :
  exists st,
    @indexRange Sample.world [Sample.rowViaProxy] 0 799 = Some st /\
    Z.of_nat (length (db st)) <= 1 + totalRecords st.
Proof.
  eexists. split; [vm_compute; reflexivity|].
  eapply (@record_count_bounds_new_rows Sample.world [Sample.rowViaProxy] 0 799).
  vm_compute. reflexivity.
Defined.

(** X13. The totals and the record count that a run returns do not depend
    on what the table held before: run against any two tables, over the
    same blocks, the accumulators come out the same. *)
Theorem accumulators_ignore_table {E : Externals} (t1 t2 : Table) (fromB toB : Z) :
  exists s1 s2,
    indexRange t1 fromB toB = Some s1 /\
    indexRange t2 fromB toB = Some s2 /\
    totalWeiByToken s1 = totalWeiByToken s2 /\
    totalRecords s1 = totalRecords s2.
Proof.
  destruct (indexRange_related (fun _ _ => True) ltac:(intros; exact I)
              t1 t2 fromB toB I) as (s1 & s2 & H1 & H2 & _ & Htot & Hcnt).
  exists s1, s2. repeat split; assumption.
Qed.

(** X14. Every row that a run adds to the table is well formed: its symbol
    and token address are those of one token of [TOKENS], [proxyUsed] says
    whether [transferFrom] is in the proxy list up to letter case,
    [contributor] is [transferFrom] itself when it is not and the
    checksummed [txFrom] when it is, and the store accepted the row. *)
Theorem stored_rows_well_formed {E : Externals}
    (t : Table) (fromB toB : Z) (st : RunState) (r : TreasuryTransfer) :
  indexRange t fromB toB = Some st -> r ∈ db st ->
  r ∈ t \/
  ((exists token, token ∈ TOKENS /\ tokenSymbol r = symbol token /\
                  tokenAddress r = address token) /\
   proxyUsed r = includes PROXY_ADDRESSES (toLowerCase (transferFrom r)) /\
   (proxyUsed r = false -> contributor r = transferFrom r) /\
   (proxyUsed r = true -> getAddress (txFrom r) = Some (contributor r)) /\
   upsertFails r = false).
Proof.
  intros Hrun Hin.
  destruct (indexRange_related
              (fun a _ => forall r, r ∈ a -> r ∈ t \/
                 ((exists token, token ∈ TOKENS /\ tokenSymbol r = symbol token /\
                                 tokenAddress r = address token) /\
                  proxyUsed r = includes PROXY_ADDRESSES (toLowerCase (transferFrom r)) /\
                  (proxyUsed r = false -> contributor r = transferFrom r) /\
                  (proxyUsed r = true -> getAddress (txFrom r) = Some (contributor r)) /\
                  upsertFails r = false)))
      with (t1 := t) (t2 := t) (fromB := fromB) (toB := toB)
    as (s1 & s2 & Hrun1 & _ & Hinv & _).
  - intros a b c Ha (log & token & v & Hres & Hok) r' Hr'.
    unfold addIfAbsent in Hr'. destruct (findUnique (keyOf c) a); [auto|].
    apply elem_of_app in Hr' as [Hr'|Hr']; [auto|].
    apply list_elem_of_singleton in Hr' as ->. right.
    pose proof (resolveLog_Ready _ _ _ _ Hres)
      as (tf & tt & tx & sender & contrib & Htok & _ & _ & _ & _ & _ & Hc & Hrow).
    apply tokenAddrMap_Some in Htok as [Htok _].
    unfold computeContributor in Hc. subst c.
    cbn [tokenSymbol tokenAddress proxyUsed contributor transferFrom txFrom].
    split; [exists token; repeat split; assumption|].
    split; [reflexivity|]. split; [|split; [|exact Hok]].
    + intros Hp. rewrite Hp in Hc. congruence.
    + intros Hp. rewrite Hp in Hc. exact Hc.
  - intros r' Hr'. left. exact Hr'.
  - rewrite Hrun in Hrun1. injection Hrun1 as <-. apply Hinv, Hin.
Qed.

Lemma stored_rows_well_formed_witness :
  proxyUsed Sample.rowViaProxy = true /\
  @getAddress Sample.world (txFrom Sample.rowViaProxy)
    = Some (contributor Sample.rowViaProxy).
Proof.
  destruct (@stored_rows_well_formed Sample.world [] 0 799
              (mkState [Sample.rowViaProxy; Sample.rowDirect]
                 {[ "AXS" := 1000000000000000000; "WETH" := 5 ]} 2)
              Sample.rowViaProxy)
    as [Hold | (_ & _ & _ & Hproxy & _)].
  - vm_compute. reflexivity.
  - apply list_elem_of_here.
  - apply elem_of_nil in Hold. contradiction.
  - split; [reflexivity|]. apply Hproxy. reflexivity.
Defined.

(** X15. After a write that the store accepts, looking the key up finds
    the row that was there before the write if there was one, and the new
    row otherwise: the first row written under a key is the one that
    stays, even when a later log with the same key carries other values. *)
Theorem first_write_wins {E : Externals}
    (st : RunState) (log : Log) (token : Token) (valueWei : Z)
    (c : TreasuryTransfer) :
  resolveLog log = Ready token valueWei c ->
  upsertFails c = false ->
  findUnique (log_transactionHash log, log_index log) (db (processLog st log).1)
  = Some (default c (findUnique (log_transactionHash log, log_index log) (db st))).
Proof.
  intros Hres Hok. rewrite (processLog_Ready _ _ _ _ _ Hres). cbn [fst db].
  rewrite Hok, <- (resolveLog_key _ _ _ _ Hres). unfold addIfAbsent.
  destruct (findUnique (keyOf c) (db st)) as [old|] eqn:Hfind; simpl.
  - exact Hfind.
  - apply findUnique_snoc_new; [exact Hfind|reflexivity].
Qed.

Lemma first_write_wins_witness :
  let stale :=
    mkTransfer "0xaa01" 0 99 "AXS" "0x97a9107c1793bc407d6f527b77e7fff4d812bece"
               "t" false "s" "f" "t" "f" "1" "0.000000000000000001" in
  findUnique ("0xaa01", 0)
    (db (@processLog Sample.world (mkState [stale] ∅ 0) Sample.logViaProxy).1)
  = Some stale.
Proof.
  intros stale.
  apply (@first_write_wins Sample.world (mkState [stale] ∅ 0) Sample.logViaProxy
           (mkToken "AXS" "0x97a9107c1793bc407d6f527b77e7fff4d812bece" 18)
           1000000000000000000 Sample.rowViaProxy);
    vm_compute; reflexivity.
Defined.



(** * Properties of the profile lookup *)

(** X17. [getData] rejects exactly when the browser cannot be launched or
    cannot be closed; every other failure (the challenge page, the request,
    the body, the GraphQL errors) is swallowed by [run] and comes out as a
    resolved value. *)
Theorem getData_rejects_iff {B : Browser} (a : string) :
  getData a = Rejects <-> launches = false \/ closes = false.
Proof.
  unfold getData, run.
  destruct launches, closes; simpl;
    try (split; [intros _; auto | reflexivity]).
  destruct (if passes then _ else _) as [r|];
    (split; [discriminate | intros [H|H]; discriminate H]).
Qed.

Lemma getData_rejects_iff_witness :
  @getData SampleProfile.browserStuck SampleProfile.lunacian = Rejects.
Proof.
  apply (proj2 (@getData_rejects_iff SampleProfile.browserStuck
                  SampleProfile.lunacian)).
  right. reflexivity.
Defined.

(** X18. [getData] resolves to a profile exactly when the browser launches,
    passes the challenge and closes, the response is OK, its body is not
    empty and parses, the parsed value has no truthy [errors], and
    [data.publicProfileWithRoninAddress.settings.axieEcosystemStats] is
    truthy; the profile then carries the queried address, the profile name
    ([null] when there is none) and the score and title of the stats. *)
Theorem getData_profile_iff {B : Browser} (a : string) (d : ProfileData) :
  getData a = Resolves (Some d) <->
  launches = true /\ passes = true /\ closes = true /\
  exists text json,
    fetchProfile a = FetchResponse true text /\
    text <> EmptyString /\
    JSON_parse text = Some json /\
    truthy (optGet json "errors") = false /\
    let profile := optGet (optGet json "data") "publicProfileWithRoninAddress" in
    let stats := optGet (optGet profile "settings") "axieEcosystemStats" in
    truthy stats = true /\
    d = {| address0x := a;
           name := nullish (optGet profile "name") JNull;
           axieScore := optGet stats "axieScore";
           title := optGet stats "title" |}.
Proof.
  unfold getData, run, evaluateInPage, profileOf, parseBody. split.
  - destruct launches; [|discriminate]. destruct passes, closes; try discriminate.
    destruct (fetchProfile a) as [|ok text]; [discriminate|].
    destruct text as [|ch text].
    { destruct ok; simpl; discriminate. }
    destruct (JSON_parse (String ch text)) as [json|] eqn:Hparse; [|discriminate].
    destruct ok; [|discriminate]. simpl.
    destruct (truthy (optGet json "errors")) eqn:Herr; [discriminate|].
    destruct (truthy (optGet _ "axieEcosystemStats")) eqn:Hstats; [|discriminate].
    intros [= <-]. repeat split.
    exists (String ch text), json. repeat split; try assumption. discriminate.
  - intros (-> & -> & -> & text & json & -> & Hne & Hparse & Herr & Hstats & ->).
    destruct text as [|ch text]; [contradiction|].
    rewrite Hparse. simpl. rewrite Herr, Hstats. reflexivity.
Qed.

Lemma getData_profile_iff_witness :
  @getData SampleProfile.browser SampleProfile.lunacian
  = Resolves (Some {| address0x := SampleProfile.lunacian;
                      name := JNull;
                      axieScore := JNumber (QArith_base.Qmake 1250 1);
                      title := JString "Collector" |}).
Proof.
  apply (proj2 (@getData_profile_iff SampleProfile.browser SampleProfile.lunacian _)).
  split; [reflexivity|]. split; [reflexivity|]. split; [reflexivity|].
  exists SampleProfile.body, SampleProfile.profileJson.
  repeat split; try (vm_compute; reflexivity). discriminate.
Defined.

(** X19. A response that is not OK, or whose parsed body has a truthy
    [errors] field, never yields a profile, even when the body carries the
    profile data as well: with a browser that launches and closes,
    [getData] resolves to null. *)
Theorem getData_hides_data_on_error {B : Browser}
    (a : string) (ok : bool) (text : string) (json : JSValue) :
  launches = true -> closes = true ->
  fetchProfile a = FetchResponse ok text ->
  parseBody text = Some json ->
  ok = false \/ truthy (optGet json "errors") = true ->
  getData a = Resolves None.
Proof.
  intros Hl Hc Hfetch Hparse Hbad.
  unfold getData, run, evaluateInPage. rewrite Hl, Hc, Hfetch, Hparse.
  assert (negb ok || truthy (optGet json "errors") = true) as ->.
  { destruct Hbad as [->| ->]; [reflexivity|apply orb_true_r]. }
  destruct passes; reflexivity.
Qed.

Lemma getData_hides_data_on_error_witness :
  @getData SampleProfile.browser "0xerrors" = Resolves None /\
  @getData SampleProfile.browser "0xdenied" = Resolves None /\
  truthy (optGet (optGet SampleProfile.profileJsonErrors "data")
                 "publicProfileWithRoninAddress") = true.
Proof.
  split; [|split].
  - apply (@getData_hides_data_on_error SampleProfile.browser "0xerrors" true
             SampleProfile.bodyErrors SampleProfile.profileJsonErrors);
      try reflexivity. right. reflexivity.
  - apply (@getData_hides_data_on_error SampleProfile.browser "0xdenied" false
             SampleProfile.body SampleProfile.profileJson);
      try reflexivity. left. reflexivity.
  - reflexivity.
Defined.

(** X20. An empty response body is not an error: it is read as [null], no
    profile is found in it, and with a browser that launches and closes
    [getData] resolves to null whatever the status of the response. *)
Theorem getData_empty_body {B : Browser} (a : string) (ok : bool) :
  launches = true -> closes = true ->
  fetchProfile a = FetchResponse ok EmptyString ->
  evaluateInPage a = (if ok then Some None else None) /\
  getData a = Resolves None.
Proof.
  intros Hl Hc Hfetch. unfold getData, run, evaluateInPage.
  rewrite Hl, Hc, Hfetch. simpl.
  destruct ok, passes; split; reflexivity.
Qed.

Lemma getData_empty_body_witness :
  @evaluateInPage SampleProfile.browser "0xnobody" = Some None /\
  @getData SampleProfile.browser "0xnobody" = Resolves None.
Proof.
  apply (@getData_empty_body SampleProfile.browser "0xnobody" true); reflexivity.
Defined.

(** * How the pieces of a run fit together *)

(** X21. Whenever all the queries of a batch succeed, the two nested loops
    over the results amount to one loop over all the logs of the batch, in
    window order and stopping at the first exception. *)
Theorem processBatch_flat {E : Externals}
    (st : RunState) (batch : list BlockRange) (results : list (list Log)) :
  promiseAll (map (fun r => getLogs (filterFor r)) batch) = Some results ->
  processResults st results = processLogs st (concat results) /\
  processBatch st batch = (processLogs st (concat results)).1.
Proof.
  intros Hfetch.
  assert (Hflat : forall s, processResults s results = processLogs s (concat results)).
  { clear Hfetch. induction results as [|logs results IH]; intros s; simpl;
      [reflexivity|].
    rewrite processLogs_app.
    destruct (processLogs s logs) as [s' []]; [apply IH|reflexivity]. }
  split; [apply Hflat|]. unfold processBatch. now rewrite Hfetch, Hflat.
Qed.

Lemma processBatch_flat_witness :
  @processBatch Sample.world Sample.emptyState [mkRange 0 399; mkRange 400 799]
  = (@processLogs Sample.world Sample.emptyState
       [Sample.logViaProxy; Sample.logUntracked; Sample.logOrphan;
        Sample.logDirect]).1.
Proof.
  apply (proj2 (@processBatch_flat Sample.world Sample.emptyState
                  [mkRange 0 399; mkRange 400 799]
                  [[Sample.logViaProxy; Sample.logUntracked; Sample.logOrphan];
                   [Sample.logDirect]] eq_refl)).
Defined.


